(** * libfsm: a type-safe state machine (StateMachine.hpp) and its demos

    A shallow embedding of [src/libfsm/include/StateMachine.hpp] together
    with the machines declared in [src/demos/door/main.cpp],
    [src/demos/tcp/main.cpp] and [src/libfsm/unittest/StateMachineTest.cpp].

    The header is a C++17 template library, so it has two levels:

    - what the compiler does when a template is instantiated
      ([static_assert], [std::get<T>] on the tuple of states, SFINAE on
      [state->Handle(event)]).  An instantiation is a value of [Build]:
      either [Built] code or [Rejected] (the program is ill-formed);
    - what the instantiated code does when it runs.  Run-time code is a
      function [Machine -> option _]; [None] is reserved for dereferencing an
      active reference that does not designate an owned state object, which
      C++ leaves undefined. *)

From stdpp Require Import base option list strings.

Open Scope string_scope.
Open Scope list_scope.

(** ** Instantiation results and the error notation *)

Inductive Build (A : Type) : Type :=
| Built (a : A)
| Rejected.
Arguments Built {A} a.
Arguments Rejected {A}.

(** All instantiations of a list succeed, or the whole is rejected. *)
Fixpoint build_all {A} (bs : list (Build A)) : Build (list A) :=
  match bs with
  | [] => Built []
  | Built a :: bs' =>
      match build_all bs' with
      | Built l => Built (a :: l)
      | Rejected => Rejected
      end
  | Rejected :: _ => Rejected
  end.

Notation "'let?' x ':=' e 'in' k" :=
  (match e with Some x => k | None => None end)
  (at level 10, x pattern, e at level 100, k at level 200, only parsing).

(** ** Data model *)

(** [fsm::NullTransition] and [fsm::TransitionTo<State>]: both are empty
    structs, the target is a template argument. *)
Inductive Directive (Ty : Type) : Type :=
| NullTransition
| TransitionTo (X : Ty).
Arguments NullTransition {Ty}.
Arguments TransitionTo {Ty} X.

(** A member function written by the user of the library: it reads and
    writes the data members of its own object, returns a result and may
    write lines to [std::cout]. *)
Definition Method (Obj R : Type) : Type := Obj -> R * Obj * list string.

Definition returned {Obj R} (x : R * Obj * list string) : R := fst (fst x).
Definition self {Obj R} (x : R * Obj * list string) : Obj := snd (fst x).
Definition written {Obj R} (x : R * Obj * list string) : list string := snd x.

(** One overload [Ret Handle(const Event &)] of a state class: the return
    type is fixed by the declaration, the body runs on the object and the
    event. *)
Record HandleMember (Ty Obj Payload : Type) : Type := {
  handle_ret : Directive Ty;
  handle_body : Payload -> Method Obj unit
}.
Arguments handle_ret {Ty Obj Payload} h.
Arguments handle_body {Ty Obj Payload} h.

(** What a class deriving from [fsm::State] declares.  [Handle E] is the
    outcome of overload resolution for [state->Handle(event)] with an event
    of type [E]: [None] when the expression is ill-formed. *)
Record StateClass (Ty Obj Payload : Type) : Type := {
  ctor : Obj;
  Name_override : option (Method Obj string);
  OnStateEnter_override : option (Method Obj unit);
  OnStateExit_override : option (Method Obj unit);
  Handle : Ty -> option (HandleMember Ty Obj Payload)
}.
Arguments ctor {Ty Obj Payload} s.
Arguments Name_override {Ty Obj Payload} s.
Arguments OnStateEnter_override {Ty Obj Payload} s.
Arguments OnStateExit_override {Ty Obj Payload} s.
Arguments Handle {Ty Obj Payload} s E.

(** The virtual members of [class State] (StateMachine.hpp:224-237). *)
Definition State_OnStateEnter {Obj} : Method Obj unit := fun o => (tt, o, []).
Definition State_OnStateExit {Obj} : Method Obj unit := fun o => (tt, o, []).
Definition State_Name {Obj} : Method Obj string :=
  fun o => ("<Unnamed State>", o, []).

(** Virtual dispatch: the final overrider of the object's class. *)
Definition OnStateEnter {Ty Obj Payload} (c : StateClass Ty Obj Payload)
  : Method Obj unit := default State_OnStateEnter (OnStateEnter_override c).
Definition OnStateExit {Ty Obj Payload} (c : StateClass Ty Obj Payload)
  : Method Obj unit := default State_OnStateExit (OnStateExit_override c).
Definition Name {Ty Obj Payload} (c : StateClass Ty Obj Payload)
  : Method Obj string := default State_Name (Name_override c).

(** A pointer to a state object: null, or the address of element [i] of
    the tuple [states], [&std::get<i>(states)]. *)
Inductive Ptr : Type :=
| nullptr
| elem (i : nat).

#[global] Instance Ptr_eq_dec : EqDecision Ptr.
Proof. solve_decision. Defined.

(** [std::variant<States *...>]: the discriminant and the stored pointer. *)
Record Variant : Type := {
  index : nat;
  ptr : Ptr
}.

(** The calls the machine makes on state objects, in the order made.  [T] is
    the static type of the pointer the call goes through. *)
Inductive Call (Ty : Type) : Type :=
| call_OnStateExit (T : Ty) (p : Ptr)
| call_OnStateEnter (T : Ty) (p : Ptr)
| call_Name (T : Ty) (p : Ptr)
| call_Handle (T E : Ty) (p : Ptr).
Arguments call_OnStateExit {Ty} T p.
Arguments call_OnStateEnter {Ty} T p.
Arguments call_Name {Ty} T p.
Arguments call_Handle {Ty} T E p.

(** The two data members of [StateMachine<States...>], followed by the
    environment the embedding threads along: the record of calls made on
    state objects and the lines written to [std::cout]. *)
Record Machine (Ty Obj : Type) : Type := {
  states : list Obj;
  currentState : Variant;
  calls : list (Call Ty);
  cout : list string
}.
Arguments states {Ty Obj} m.
Arguments currentState {Ty Obj} m.
Arguments calls {Ty Obj} m.
Arguments cout {Ty Obj} m.

(** Position of [X] in a pack in which it occurs exactly once.  This is the
    rule of both [std::get<X>] on a tuple and of the converting constructor
    and assignment of a variant from an [X *]. *)
Fixpoint index_of {Ty} `{!EqDecision Ty} (X : Ty) (l : list Ty) : option nat :=
  match l with
  | [] => None
  | T :: l' =>
      if decide (T = X)
      then (if decide (X ∈ l') then None else Some 0)
      else S <$> index_of X l'
  end.

(** ** The machine template ([namespace fsm]) *)

Module fsm.
Section StateMachine.
Context {Ty : Type} `{!EqDecision Ty}.
Context {Obj Payload : Type}.

(** Build flag [LIBFSM_DEBUG]. *)
Variable LIBFSM_DEBUG : bool.
(** [std::is_base_of<fsm::State, T>] and [std::is_base_of<fsm::Event, T>]. *)
Variable is_base_of_State : Ty -> bool.
Variable is_base_of_Event : Ty -> bool.
(** The class definitions of the translation unit. *)
Variable members : Ty -> StateClass Ty Obj Payload.
(** The template parameter pack [States...]. *)
Variable States : list Ty.

#[local] Abbreviation Machine := (Machine Ty Obj).
#[local] Abbreviation Directive := (Directive Ty).

(** [detail::ValidateType] folded with [&&] over the pack. *)
Definition ValidateType (Trait : Ty -> bool) (Types : list Ty) : bool :=
  forallb Trait Types.
Definition IsDerivedFromState (Ts : list Ty) : bool :=
  ValidateType is_base_of_State Ts.
Definition IsDerivedFromEvent (Es : list Ty) : bool :=
  ValidateType is_base_of_Event Es.

(** [std::get<X>(states)] and the alternative a variant selects for an
    [X *]. *)
Definition std_get (X : Ty) : option nat := index_of X States.
Definition variant_alternative (X : Ty) : option nat := index_of X States.

(** [state_ptr->f()] through a pointer of static type [T *]. *)
Definition deref (T : Ty) (p : Ptr) (m : Machine) : option (nat * Obj) :=
  match p with
  | nullptr => None
  | elem i =>
      if decide (States !! i = Some T)
      then (fun o => (i, o)) <$> states m !! i
      else None
  end.

Definition invoke {R} (c : Call Ty) (T : Ty) (p : Ptr) (f : Method Obj R)
    (m : Machine) : option (R * Machine) :=
  let? (i, o) := deref T p m in
  Some (returned (f o),
        {| states := <[i:=self (f o)]> (states m);
           currentState := currentState m;
           calls := calls m ++ [c];
           cout := cout m ++ written (f o) |}).

(** [std::visit(f, currentState)]: one instantiation of the generic lambda
    per alternative, selected by the discriminant. *)
Definition visit {R} (table : list (Ptr -> Machine -> option R))
    (m : Machine) : option R :=
  let? f := table !! index (currentState m) in
  f (ptr (currentState m)) m.

(** StateMachine.hpp:309-329. *)
Definition onStateEnter (T : Ty) (p : Ptr) (m : Machine) : option Machine :=
  snd <$> invoke (call_OnStateEnter T p) T p (OnStateEnter (members T)) m.
Definition CallOnStateEnter (m : Machine) : option Machine :=
  visit (map onStateEnter States) m.

Definition onStateExit (T : Ty) (p : Ptr) (m : Machine) : option Machine :=
  snd <$> invoke (call_OnStateExit T p) T p (OnStateExit (members T)) m.
Definition CallOnStateExit (m : Machine) : option Machine :=
  visit (map onStateExit States) m.

Definition set_currentState (v : Variant) (m : Machine) : Machine :=
  {| states := states m; currentState := v;
     calls := calls m; cout := cout m |}.

(** StateMachine.hpp:260-268. *)
Definition Transition (X : Ty) : Build (Machine -> option Machine) :=
  if IsDerivedFromState [X] then
    match std_get X, variant_alternative X with
    | Some i, Some k =>
        Built (fun m =>
          let? m1 := CallOnStateExit m in
          let m2 := set_currentState {| index := k; ptr := elem i |} m1 in
          CallOnStateEnter m2)
    | _, _ => Rejected
    end
  else Rejected.

Definition print (line : string) (m : Machine) : Machine :=
  {| states := states m; currentState := currentState m;
     calls := calls m; cout := cout m ++ [line] |}.

(** [NullTransition::Execute] (StateMachine.hpp:74-80) and
    [TransitionTo<State>::Execute] (StateMachine.hpp:364-369). *)
Definition Execute (d : Directive) : Build (Machine -> option Machine) :=
  match d with
  | NullTransition =>
      Built (fun m =>
        Some (if LIBFSM_DEBUG then print "Called Null Transition" m else m))
  | TransitionTo X =>
      if IsDerivedFromState [X] then Transition X else Rejected
  end.

(** The two overloads of [detail::InvokeHandleImpl]
    (StateMachine.hpp:97-118): the return type and the code. *)
Definition Handler : Type :=
  Directive * (Payload -> Ptr -> Machine -> option Machine).

Definition InvokeHandleImpl_int (T E : Ty) : option Handler :=
  match Handle (members T) E with
  | Some h =>
      Some (handle_ret h,
            fun ev p m =>
              snd <$> invoke (call_Handle T E p) T p (handle_body h ev) m)
  | None => None
  end.

Definition InvokeHandleImpl_double (T E : Ty) : Handler :=
  (NullTransition, fun _ _ m => Some m).

(** StateMachine.hpp:134-140: the [int] overload is the better match
    whenever it is viable. *)
Definition InvokeHandle (T E : Ty) : Handler :=
  default (InvokeHandleImpl_double T E) (InvokeHandleImpl_int T E).

(** The lambda of [Dispatch] instantiated at one alternative
    (StateMachine.hpp:283-285). *)
Definition passEventToState (E T : Ty)
    : Build (Payload -> Ptr -> Machine -> option Machine) :=
  match Execute (fst (InvokeHandle T E)) with
  | Built exec =>
      Built (fun ev p m =>
        let? m1 := snd (InvokeHandle T E) ev p m in
        exec m1)
  | Rejected => Rejected
  end.

(** StateMachine.hpp:277-288. *)
Definition Dispatch (E : Ty) : Build (Payload -> Machine -> option Machine) :=
  if IsDerivedFromEvent [E] then
    match build_all (map (passEventToState E) States) with
    | Built table => Built (fun ev m => visit (map (fun f => f ev) table) m)
    | Rejected => Rejected
    end
  else Rejected.

(** StateMachine.hpp:295-302. *)
Definition getName (T : Ty) (p : Ptr) (m : Machine)
    : option (string * Machine) :=
  invoke (call_Name T p) T p (Name (members T)) m.
Definition GetCurrentStateName (m : Machine) : option (string * Machine) :=
  visit (map getName States) m.

(** Construction: the class-level [static_assert] (StateMachine.hpp:251),
    [states{}] and [currentState{&std::get<0>(states)}]
    (StateMachine.hpp:335-345). *)
Definition StateMachine : Build Machine :=
  if IsDerivedFromState States then
    match States with
    | [] => Rejected
    | S1 :: _ =>
        match variant_alternative S1 with
        | Some k =>
            Built {| states := map (fun T => ctor (members T)) States;
                     currentState := {| index := k; ptr := elem 0 |};
                     calls := [];
                     cout := [] |}
        | None => Rejected
        end
    end
  else Rejected.

(** The active reference designates one of the objects the machine owns:
    every declared state has its object, the stored pointer is the address
    of a tuple element, and the discriminant is the position of that
    element, so that the pointer has the type of the object it points to. *)
Definition active_reference_valid (m : Machine) : bool :=
  bool_decide (length (states m) = length States) &&
  match ptr (currentState m) with
  | nullptr => false
  | elem i =>
      bool_decide (index (currentState m) = i) &&
      bool_decide (i < length States)
  end.

(** The active object of a machine: its slot, its class and its data. *)
Definition active (m : Machine) (i : nat) (T : Ty) (o : Obj) : Prop :=
  currentState m = {| index := i; ptr := elem i |} /\
  States !! i = Some T /\
  states m !! i = Some o.

(** Where a directive leaves the active reference: a null transition
    keeps it, a transition to [X] points it at the object [std::get<X>]
    designates. *)
Definition directive_outcome (d : Directive) (m m' : Machine) : Prop :=
  match d with
  | NullTransition => currentState m' = currentState m
  | TransitionTo X =>
      exists j, std_get X = Some j /\
                currentState m' = {| index := j; ptr := elem j |}
  end.

(** The machines a program can obtain through the public interface. *)
Inductive reachable : Machine -> Prop :=
| reachable_fresh m :
    StateMachine = Built m -> reachable m
| reachable_Dispatch E f ev m m' :
    reachable m -> Dispatch E = Built f -> f ev m = Some m' -> reachable m'
| reachable_Transition X f m m' :
    reachable m -> Transition X = Built f -> f m = Some m' -> reachable m'
| reachable_GetCurrentStateName m s m' :
    reachable m -> GetCurrentStateName m = Some (s, m') -> reachable m'.

(** How often [OnStateEnter] was called on the object at [p], and the hook
    calls among all calls. *)
Definition is_enter_of (p : Ptr) (c : Call Ty) : bool :=
  match c with
  | call_OnStateEnter _ q => bool_decide (q = p)
  | _ => false
  end.
Definition is_hook (c : Call Ty) : bool :=
  match c with
  | call_OnStateEnter _ _ | call_OnStateExit _ _ => true
  | _ => false
  end.
Definition enter_count (p : Ptr) (m : Machine) : nat :=
  length (filter (fun c => is_enter_of p c = true) (calls m)).
Definition hook_calls (m : Machine) : list (Call Ty) :=
  filter (fun c => is_hook c = true) (calls m).

(** The hook calls of a history read as a walk over the state objects:
    starting at [p], each step is an [OnStateExit] on the object the walk
    stands on, followed at once by an [OnStateEnter] on the object it moves
    to.  The result is the object the walk ends on; [None] when the calls do
    not have this shape. *)
Fixpoint hook_chain (p : Ptr) (l : list (Call Ty)) : option Ptr :=
  match l with
  | [] => Some p
  | call_OnStateExit _ q :: call_OnStateEnter _ r :: l' =>
      if decide (q = p) then hook_chain r l' else None
  | _ => None
  end.

(** Two machines that differ at most in what was written to [std::cout]. *)
Definition same_but_cout (m1 m2 : Machine) : Prop :=
  states m1 = states m2 /\
  currentState m1 = currentState m2 /\
  calls m1 = calls m2.

End StateMachine.
End fsm.
Import fsm.

(** ** The declaration macros (StateMachine.hpp:38-56) *)

(** [FSM_TRANSITION(State, Event)]: a [Handle] overload returning
    [fsm::TransitionTo<State>] whose body is [return {};]. *)
Definition FSM_TRANSITION {Ty Obj Payload} (State : Ty)
  : HandleMember Ty Obj Payload :=
  {| handle_ret := TransitionTo State; handle_body := fun _ o => (tt, o, []) |}.

(** [FSM_STATE_BEGIN(StateName)]: the override of [Name] returns the
    stringized class name. *)
Definition FSM_STATE_BEGIN_Name {Obj} (StateName : string) : Method Obj string :=
  fun o => (StateName, o, []).

(** A class that overrides nothing and declares no [Handle]. *)
Definition plain_class {Ty} : StateClass Ty unit unit :=
  {| ctor := tt; Name_override := None; OnStateEnter_override := None;
     OnStateExit_override := None; Handle := fun _ => None |}.

(** A [Handle] overload returning [fsm::TransitionTo<State>] after writing
    one line. *)
Definition printing_transition {Ty} (line : string) (State : Ty)
  : HandleMember Ty unit unit :=
  {| handle_ret := TransitionTo State;
     handle_body := fun _ o => (tt, o, [line]) |}.

(** ** src/demos/door/main.cpp *)

Module Door.

Inductive Ty : Type := OpenEvent | CloseEvent | ClosedState | OpenState.

#[global] Instance Ty_eq_dec : EqDecision Ty.
Proof. solve_decision. Defined.

Definition is_base_of_State (T : Ty) : bool :=
  match T with ClosedState | OpenState => true | _ => false end.
Definition is_base_of_Event (T : Ty) : bool :=
  match T with OpenEvent | CloseEvent => true | _ => false end.

Definition members (T : Ty) : StateClass Ty unit unit :=
  match T with
  | ClosedState =>
      {| ctor := tt;
         Name_override := Some (FSM_STATE_BEGIN_Name "ClosedState");
         OnStateEnter_override := None;
         OnStateExit_override := None;
         Handle := fun E =>
           match E with
           | OpenEvent => Some (FSM_TRANSITION OpenState)
           | _ => None
           end |}
  | OpenState =>
      {| ctor := tt;
         Name_override := Some (FSM_STATE_BEGIN_Name "OpenState");
         OnStateEnter_override := None;
         OnStateExit_override := None;
         Handle := fun E =>
           match E with
           | CloseEvent => Some (FSM_TRANSITION ClosedState)
           | _ => None
           end |}
  | _ => plain_class
  end.

(** [using Door = fsm::StateMachine<ClosedState, OpenState>;] *)
Definition States : list Ty := [ClosedState; OpenState].

Definition Door : Build (Machine Ty unit) :=
  StateMachine is_base_of_State members States.
Definition Dispatch (E : Ty) : Build (unit -> Machine Ty unit -> option (Machine Ty unit)) :=
  Dispatch false is_base_of_State is_base_of_Event members States E.
Definition GetCurrentStateName (m : Machine Ty unit) :=
  GetCurrentStateName members States m.

(** The name a machine reports, when it was built and the call is defined. *)
Definition name_of (m : option (Machine Ty unit)) : option string :=
  let? m' := m in fst <$> GetCurrentStateName m'.

Definition fresh : option (Machine Ty unit) :=
  match Door with Built door => Some door | Rejected => None end.
Definition after_open : option (Machine Ty unit) :=
  match Dispatch OpenEvent with
  | Built dispatch => let? door := fresh in dispatch tt door
  | Rejected => None
  end.
Definition after_close : option (Machine Ty unit) :=
  match Dispatch CloseEvent with
  | Built dispatch => let? door := after_open in dispatch tt door
  | Rejected => None
  end.

(** [main]: what the program writes to [std::cout]. *)
Definition main : option (list string) :=
  let? door := after_close in
  let? (name, door') := GetCurrentStateName door in
  Some (cout (print name door')).

End Door.

(** ** src/demos/tcp/main.cpp *)

Module Tcp.

Inductive Ty : Type :=
| SynEvent | SynAckEvent | AckEvent | FinEvent | FinAckEvent | RstEvent
| TimeoutEvent | ActiveOpenEvent | PassiveOpenEvent | SendDataEvent
| CloseEvent
| ClosedState | ListenState | SynRcvdState | SynSentState | EstablishedState
| FinWait1State | FinWait2State | ClosingState | TimeWaitState
| CloseWaitState | LastAckState.

#[global] Instance Ty_eq_dec : EqDecision Ty.
Proof. solve_decision. Defined.

(** The event classes derive privately from [fsm::Event];
    [std::is_base_of] does not look at access. *)
Definition is_base_of_Event (T : Ty) : bool :=
  match T with
  | SynEvent | SynAckEvent | AckEvent | FinEvent | FinAckEvent | RstEvent
  | TimeoutEvent | ActiveOpenEvent | PassiveOpenEvent | SendDataEvent
  | CloseEvent => true
  | _ => false
  end.
Definition is_base_of_State (T : Ty) : bool := negb (is_base_of_Event T).

(** A state class of this file: no [Name] override anywhere, and only
    [EstablishedState] overrides a hook. *)
Definition state_class (enter : option (Method unit unit))
    (handle : Ty -> option (HandleMember Ty unit unit))
  : StateClass Ty unit unit :=
  {| ctor := tt; Name_override := None; OnStateEnter_override := enter;
     OnStateExit_override := None; Handle := handle |}.

Definition members (T : Ty) : StateClass Ty unit unit :=
  match T with
  | ClosedState => state_class None (fun E =>
      match E with
      | PassiveOpenEvent =>
          Some (printing_transition "Got PassiveOpenEvent" ListenState)
      | ActiveOpenEvent => Some (FSM_TRANSITION SynSentState)
      | _ => None
      end)
  | ListenState => state_class None (fun E =>
      match E with
      | SendDataEvent => Some (printing_transition "Sending data" SynSentState)
      | SynEvent => Some (FSM_TRANSITION SynRcvdState)
      | _ => None
      end)
  | SynRcvdState => state_class None (fun E =>
      match E with
      | TimeoutEvent => Some (FSM_TRANSITION ClosedState)
      | RstEvent => Some (FSM_TRANSITION ListenState)
      | AckEvent => Some (FSM_TRANSITION EstablishedState)
      | CloseEvent => Some (FSM_TRANSITION FinWait1State)
      | _ => None
      end)
  | SynSentState => state_class None (fun E =>
      match E with
      | CloseEvent => Some (FSM_TRANSITION ClosedState)
      | SynEvent => Some (FSM_TRANSITION SynRcvdState)
      | SynAckEvent =>
          Some (printing_transition "Got synack" EstablishedState)
      | _ => None
      end)
  | EstablishedState =>
      state_class (Some (fun o => (tt, o, ["Entering EstablishedState"])))
        (fun E =>
      match E with
      | FinEvent => Some (FSM_TRANSITION CloseWaitState)
      | CloseEvent => Some (FSM_TRANSITION FinWait1State)
      | _ => None
      end)
  | FinWait1State => state_class None (fun E =>
      match E with
      | FinEvent => Some (FSM_TRANSITION ClosingState)
      | AckEvent => Some (FSM_TRANSITION FinWait2State)
      | FinAckEvent => Some (FSM_TRANSITION TimeWaitState)
      | _ => None
      end)
  | FinWait2State => state_class None (fun E =>
      match E with
      | FinEvent => Some (FSM_TRANSITION TimeWaitState)
      | _ => None
      end)
  | ClosingState => state_class None (fun E =>
      match E with
      | AckEvent => Some (FSM_TRANSITION TimeWaitState)
      | _ => None
      end)
  | TimeWaitState => state_class None (fun E =>
      match E with
      | TimeoutEvent => Some (FSM_TRANSITION ClosedState)
      | _ => None
      end)
  | CloseWaitState => state_class None (fun E =>
      match E with
      | CloseEvent => Some (FSM_TRANSITION LastAckState)
      | _ => None
      end)
  | LastAckState => state_class None (fun E =>
      match E with
      | AckEvent => Some (FSM_TRANSITION ClosedState)
      | _ => None
      end)
  | _ => plain_class
  end.

(** [using TcpStateMachine = fsm::StateMachine<ClosedState, ...>;] *)
Definition States : list Ty :=
  [ClosedState; ListenState; SynRcvdState; SynSentState; EstablishedState;
   FinWait1State; FinWait2State; ClosingState; TimeWaitState; CloseWaitState;
   LastAckState].

Definition TcpStateMachine : Build (Machine Ty unit) :=
  StateMachine is_base_of_State members States.
Definition Dispatch (E : Ty) : Build (unit -> Machine Ty unit -> option (Machine Ty unit)) :=
  Dispatch false is_base_of_State is_base_of_Event members States E.
Definition GetCurrentStateName (m : Machine Ty unit) :=
  GetCurrentStateName members States m.

(** One statement [stateMachine.Dispatch(E{});] of [main]. *)
Definition dispatch_stmt (E : Ty) (m : option (Machine Ty unit))
  : option (Machine Ty unit) :=
  match Dispatch E with
  | Built dispatch => let? stateMachine := m in dispatch tt stateMachine
  | Rejected => None
  end.

Definition fresh : option (Machine Ty unit) :=
  match TcpStateMachine with Built sm => Some sm | Rejected => None end.

(** The machine at the end of [main]. *)
Definition main : option (Machine Ty unit) :=
  dispatch_stmt SynAckEvent
    (dispatch_stmt SendDataEvent
      (dispatch_stmt PassiveOpenEvent fresh)).

(** The address of the [EstablishedState] object, [&std::get<4>(states)]. *)
Definition established : Ptr := elem 4.

End Tcp.

(** ** src/libfsm/unittest/StateMachineTest.cpp *)

Module StateMachineTest.

Inductive Ty : Type := Event1 | Event2 | State1 | State2.

#[global] Instance Ty_eq_dec : EqDecision Ty.
Proof. solve_decision. Defined.

Definition is_base_of_State (T : Ty) : bool :=
  match T with State1 | State2 => true | _ => false end.
Definition is_base_of_Event (T : Ty) : bool :=
  match T with Event1 | Event2 => true | _ => false end.

Definition members (T : Ty) : StateClass Ty unit unit :=
  match T with
  | State1 =>
      {| ctor := tt;
         Name_override := Some (fun o => ("State1", o, []));
         OnStateEnter_override := None;
         OnStateExit_override := None;
         Handle := fun E =>
           match E with
           | Event1 => Some (FSM_TRANSITION State2)
           | _ => None
           end |}
  | State2 =>
      {| ctor := tt;
         Name_override := Some (fun o => ("State2", o, []));
         OnStateEnter_override := None;
         OnStateExit_override := None;
         Handle := fun E =>
           match E with
           | Event2 => Some (FSM_TRANSITION State1)
           | _ => None
           end |}
  | _ => plain_class
  end.

Definition States : list Ty := [State1; State2].

Definition StateMachine : Build (Machine Ty unit) :=
  StateMachine is_base_of_State members States.
Definition Dispatch (E : Ty) : Build (unit -> Machine Ty unit -> option (Machine Ty unit)) :=
  Dispatch false is_base_of_State is_base_of_Event members States E.
Definition GetCurrentStateName (m : Machine Ty unit) :=
  GetCurrentStateName members States m.

(** A test body: construct, check the name, dispatch [E], return the name;
    [None] when an [ASSERT_EQ] fails. *)
Definition test_body (E : Ty) (expected : string) : option string :=
  match StateMachine, Dispatch E with
  | Built machine, Built dispatch =>
      let? (name0, machine0) := GetCurrentStateName machine in
      if bool_decide (name0 = "State1") then
        let? machine1 := dispatch tt machine0 in
        let? (name1, _) := GetCurrentStateName machine1 in
        if bool_decide (name1 = expected) then Some name1 else None
      else None
  | _, _ => None
  end.

Definition DispatchSingle : option string := test_body Event1 "State2".
Definition DispatchEventIgnored : option string := test_body Event2 "State1".

End StateMachineTest.

(** ** Facts about packs and instantiation tables *)

Section Packs.
Context {Ty : Type} `{!EqDecision Ty}.

Lemma index_of_lookup (X : Ty) (l : list Ty) (i : nat) :
  index_of X l = Some i -> l !! i = Some X.
Proof.
  revert i. induction l as [|T l IH]; intros i; simpl; [done|].
  destruct (decide (T = X)) as [->|Hne].
  - destruct (decide (X ∈ l)); [done|]. by intros [= <-].
  - destruct (index_of X l) as [k|] eqn:Hk; simpl; [|done].
    intros [= <-]. simpl. by apply IH.
Qed.

Lemma index_of_unique (X : Ty) (l : list Ty) (i j : nat) :
  index_of X l = Some i -> l !! j = Some X -> j = i.
Proof.
  revert i j. induction l as [|T l IH]; intros i j; simpl; [done|].
  destruct (decide (T = X)) as [->|Hne].
  - destruct (decide (X ∈ l)) as [|Hnin]; [done|]. intros [= <-].
    destruct j as [|j]; [done|]. simpl. intros Hj.
    destruct Hnin. by eapply list_elem_of_lookup_2.
  - destruct (index_of X l) as [k|] eqn:Hk; simpl; [|done].
    intros [= <-]. destruct j as [|j]; simpl.
    + by intros [= ->].
    + intros Hj. f_equal. by apply IH.
Qed.

Lemma index_of_not_elem (X : Ty) (l : list Ty) :
  X ∉ l -> index_of X l = None.
Proof.
  induction l as [|T l IH]; simpl; [done|].
  intros Hnin. apply not_elem_of_cons in Hnin as [Hne Hnin].
  destruct (decide (T = X)); [congruence|]. by rewrite IH.
Qed.

Lemma index_of_NoDup (X : Ty) (l : list Ty) (i : nat) :
  NoDup l -> l !! i = Some X -> index_of X l = Some i.
Proof.
  intros Hnd. revert i. induction Hnd as [|T l Hnin Hnd IH]; intros i; [done|].
  destruct i as [|i]; simpl.
  - intros [= ->]. rewrite decide_True by done. by rewrite decide_False.
  - intros Hi. destruct (decide (T = X)) as [->|Hne].
    + destruct Hnin. by eapply list_elem_of_lookup_2.
    + by rewrite (IH i Hi).
Qed.

Lemma index_of_head (S1 : Ty) (rest : list Ty) (k : nat) :
  index_of S1 (S1 :: rest) = Some k -> k = 0.
Proof.
  intros Hk. symmetry. by apply (index_of_unique S1 (S1 :: rest) k 0).
Qed.

Lemma build_all_lookup {A B} (g : A -> Build B) (l : list A) (table : list B)
    (i : nat) (a : A) :
  build_all (map g l) = Built table -> l !! i = Some a ->
  exists b, g a = Built b /\ table !! i = Some b.
Proof.
  revert table i. induction l as [|x l IH]; intros table i; simpl; [done|].
  destruct (g x) as [b|] eqn:Hg; [|done].
  destruct (build_all (map g l)) as [tl|] eqn:Htl; [|done].
  intros [= <-]. destruct i as [|i]; simpl.
  - intros [= <-]. by exists b.
  - intros Hi. by apply IH.
Qed.

Lemma build_all_Built {A B} (g : A -> Build B) (l : list A) :
  (forall a, a ∈ l -> exists b, g a = Built b) ->
  exists table, build_all (map g l) = Built table.
Proof.
  induction l as [|x l IH]; intros Hall; simpl; [by eexists|].
  destruct (Hall x) as [b ->]; [by left|].
  destruct IH as [tl ->]; [|by eexists].
  intros a Ha. apply Hall. by right.
Qed.

End Packs.

(** ** Facts about the machine template *)

Section Facts.
Context {Ty : Type} `{!EqDecision Ty} {Obj Payload : Type}.
Variable LIBFSM_DEBUG : bool.
Variable is_base_of_State is_base_of_Event : Ty -> bool.
Variable members : Ty -> StateClass Ty Obj Payload.
Variable States : list Ty.

#[local] Abbreviation Machine := (Machine Ty Obj).
#[local] Abbreviation valid := (active_reference_valid States).
#[local] Abbreviation active := (active States).
#[local] Abbreviation directive_outcome := (directive_outcome States).
#[local] Abbreviation CallOnStateExit := (CallOnStateExit members States).
#[local] Abbreviation CallOnStateEnter := (CallOnStateEnter members States).
#[local] Abbreviation Transition :=
  (Transition is_base_of_State members States).
#[local] Abbreviation Execute :=
  (Execute LIBFSM_DEBUG is_base_of_State members States).
#[local] Abbreviation InvokeHandle := (InvokeHandle members States).
#[local] Abbreviation Dispatch :=
  (Dispatch LIBFSM_DEBUG is_base_of_State is_base_of_Event members States).
#[local] Abbreviation GetCurrentStateName :=
  (GetCurrentStateName members States).
#[local] Abbreviation StateMachine :=
  (StateMachine is_base_of_State members States).
#[local] Abbreviation reachable :=
  (reachable LIBFSM_DEBUG is_base_of_State is_base_of_Event members States).

Lemma valid_active (m : Machine) :
  valid m = true ->
  length (states m) = length States /\ exists i T o, active m i T o.
Proof.
  unfold active_reference_valid, active. intros H.
  apply andb_prop in H as [Hlen H]. apply bool_decide_eq_true in Hlen.
  destruct (currentState m) as [k p]; simpl in *.
  destruct p as [|i]; [done|].
  apply andb_prop in H as [Hk Hi].
  apply bool_decide_eq_true in Hk. apply bool_decide_eq_true in Hi. subst k.
  destruct (lookup_lt_is_Some_2 States i Hi) as [T HT].
  destruct (lookup_lt_is_Some_2 (states m) i) as [o Ho]; [lia|].
  split; [done|]. by exists i, T, o.
Qed.

Lemma valid_intro (m : Machine) (i : nat) :
  currentState m = {| index := i; ptr := elem i |} ->
  i < length States ->
  length (states m) = length States ->
  valid m = true.
Proof.
  intros Hc Hi Hlen. unfold active_reference_valid. rewrite Hc. simpl.
  by rewrite !bool_decide_eq_true_2.
Qed.

Lemma active_unique (m : Machine) i T o i' T' o' :
  active m i T o -> active m i' T' o' -> i' = i /\ T' = T /\ o' = o.
Proof.
  intros (Hc & HT & Ho) (Hc' & HT' & Ho').
  rewrite Hc in Hc'. injection Hc' as <-. by simplify_eq.
Qed.

Lemma invoke_at {R} (c : Call Ty) (f : Method Obj R) (m : Machine) i T o :
  States !! i = Some T -> states m !! i = Some o ->
  invoke States c T (elem i) f m =
    Some (returned (f o),
          {| states := <[i:=self (f o)]> (states m);
             currentState := currentState m;
             calls := calls m ++ [c];
             cout := cout m ++ written (f o) |}).
Proof.
  intros HT Ho. unfold invoke, deref.
  rewrite decide_True by done. by rewrite Ho.
Qed.

Lemma visit_at {R} (vis : Ty -> Ptr -> Machine -> option R) (m : Machine) i T :
  index (currentState m) = i -> States !! i = Some T ->
  visit (map vis States) m = vis T (ptr (currentState m)) m.
Proof.
  intros Hi HT. unfold visit. rewrite Hi.
  change (map vis States) with (vis <$> States).
  by rewrite list_lookup_fmap, HT.
Qed.

Lemma CallOnStateExit_at (m : Machine) i T o :
  active m i T o ->
  CallOnStateExit m =
    Some {| states := <[i:=self (OnStateExit (members T) o)]> (states m);
            currentState := currentState m;
            calls := calls m ++ [call_OnStateExit T (elem i)];
            cout := cout m ++ written (OnStateExit (members T) o) |}.
Proof.
  intros (Hc & HT & Ho). unfold fsm.CallOnStateExit.
  rewrite (visit_at _ m i T); [|by rewrite Hc|done].
  unfold onStateExit. rewrite Hc. simpl.
  rewrite (invoke_at _ _ m i T o) by done. simpl. by rewrite Hc.
Qed.

Lemma CallOnStateEnter_at (m : Machine) i T o :
  active m i T o ->
  CallOnStateEnter m =
    Some {| states := <[i:=self (OnStateEnter (members T) o)]> (states m);
            currentState := currentState m;
            calls := calls m ++ [call_OnStateEnter T (elem i)];
            cout := cout m ++ written (OnStateEnter (members T) o) |}.
Proof.
  intros (Hc & HT & Ho). unfold fsm.CallOnStateEnter.
  rewrite (visit_at _ m i T); [|by rewrite Hc|done].
  unfold onStateEnter. rewrite Hc. simpl.
  rewrite (invoke_at _ _ m i T o) by done. simpl. by rewrite Hc.
Qed.

Lemma GetCurrentStateName_at (m : Machine) i T o :
  active m i T o ->
  GetCurrentStateName m =
    Some (returned (Name (members T) o),
          {| states := <[i:=self (Name (members T) o)]> (states m);
             currentState := currentState m;
             calls := calls m ++ [call_Name T (elem i)];
             cout := cout m ++ written (Name (members T) o) |}).
Proof.
  intros (Hc & HT & Ho). unfold fsm.GetCurrentStateName.
  rewrite (visit_at _ m i T); [|by rewrite Hc|done].
  unfold getName. rewrite Hc. simpl.
  rewrite (invoke_at _ _ m i T o) by done. by rewrite Hc.
Qed.

(** [Transition<X>] is instantiable exactly when [X] derives from
    [fsm::State] and [std::get<X>] finds it in the tuple. *)
Lemma Transition_Built_inv (X : Ty) f :
  Transition X = Built f ->
  is_base_of_State X = true /\ exists j, std_get States X = Some j.
Proof.
  unfold fsm.Transition, IsDerivedFromState, ValidateType. simpl.
  destruct (is_base_of_State X); simpl; [|done].
  unfold variant_alternative, std_get.
  destruct (index_of X States) as [j|]; [|done]. eauto.
Qed.

Lemma Transition_builds (X : Ty) (j : nat) :
  is_base_of_State X = true -> std_get States X = Some j ->
  exists f, Transition X = Built f.
Proof.
  intros HX Hj. unfold fsm.Transition, IsDerivedFromState, ValidateType.
  simpl. rewrite HX. simpl. unfold variant_alternative, std_get in *.
  rewrite Hj. by eexists.
Qed.

Lemma IsDerivedFromState_elem (X : Ty) (j : nat) :
  IsDerivedFromState is_base_of_State States = true ->
  States !! j = Some X -> is_base_of_State X = true.
Proof.
  unfold IsDerivedFromState, ValidateType. intros Hall Hj.
  rewrite forallb_forall in Hall. apply Hall.
  apply list_elem_of_In. by eapply list_elem_of_lookup_2.
Qed.

(** What the code of [Transition<X>] does on a machine whose active
    reference is valid.  Shared by the statements on transitions below. *)
Lemma Transition_run (X : Ty) f (m : Machine) i T o :
  Transition X = Built f ->
  length (states m) = length States ->
  active m i T o ->
  exists j o',
    std_get States X = Some j /\
    <[i:=self (OnStateExit (members T) o)]> (states m) !! j = Some o' /\
    f m = Some
      {| states :=
           <[j:=self (OnStateEnter (members X) o')]>
             (<[i:=self (OnStateExit (members T) o)]> (states m));
         currentState := {| index := j; ptr := elem j |};
         calls := calls m ++
                    [call_OnStateExit T (elem i); call_OnStateEnter X (elem j)];
         cout := cout m ++ written (OnStateExit (members T) o) ++
                   written (OnStateEnter (members X) o') |}.
Proof.
  intros Hf Hlen Hact. unfold fsm.Transition in Hf.
  destruct (IsDerivedFromState is_base_of_State [X]); [|done].
  unfold variant_alternative, std_get in *.
  destruct (index_of X States) as [j|] eqn:Hj; [|done].
  injection Hf as <-.
  pose proof (index_of_lookup _ _ _ Hj) as HjX.
  assert (j < length States) as Hlt by (by eapply lookup_lt_Some).
  destruct (lookup_lt_is_Some_2
              (<[i:=self (OnStateExit (members T) o)]> (states m)) j)
    as [o' Ho']; [rewrite length_insert; lia|].
  exists j, o'. split; [done|]. split; [done|].
  rewrite (CallOnStateExit_at m i T o Hact).
  rewrite (CallOnStateEnter_at _ j X o'); [|done].
  simpl. by rewrite <- !app_assoc.
Qed.

Lemma InvokeHandle_unhandled (T E : Ty) :
  Handle (members T) E = None ->
  InvokeHandle T E = InvokeHandleImpl_double T E.
Proof.
  intros HN. unfold fsm.InvokeHandle, InvokeHandleImpl_int. by rewrite HN.
Qed.

Lemma InvokeHandle_handled (T E : Ty) h (ev : Payload) (m : Machine) i o :
  Handle (members T) E = Some h ->
  States !! i = Some T -> states m !! i = Some o ->
  fst (InvokeHandle T E) = handle_ret h /\
  snd (InvokeHandle T E) ev (elem i) m =
    Some {| states := <[i:=self (handle_body h ev o)]> (states m);
            currentState := currentState m;
            calls := calls m ++ [call_Handle T E (elem i)];
            cout := cout m ++ written (handle_body h ev o) |}.
Proof.
  intros Hh HT Ho. unfold fsm.InvokeHandle, InvokeHandleImpl_int.
  rewrite Hh. simpl. split; [done|].
  by rewrite (invoke_at _ _ m i T o).
Qed.

(** [Dispatch] on a machine whose active object has class [T]: the code
    selected by [std::visit] is the lambda instantiated at [T]. *)
Lemma Dispatch_run (E : Ty) f (ev : Payload) (m : Machine) i T o :
  Dispatch E = Built f -> active m i T o ->
  exists exec,
    Execute (fst (InvokeHandle T E)) = Built exec /\
    f ev m =
      match snd (InvokeHandle T E) ev (elem i) m with
      | Some m1 => exec m1
      | None => None
      end.
Proof.
  intros Hf (Hc & HT & Ho). unfold fsm.Dispatch in Hf.
  destruct (IsDerivedFromEvent is_base_of_Event [E]); [|done].
  destruct (build_all _) as [table|] eqn:Htab; [|done].
  injection Hf as <-.
  destruct (build_all_lookup _ _ _ i T Htab HT) as (b & Hb & Hlook).
  unfold passEventToState in Hb.
  destruct (Execute (fst (InvokeHandle T E))) as [exec|]; [|done].
  injection Hb as <-. exists exec. split; [done|].
  unfold visit. rewrite Hc. simpl.
  change (map (fun f0 => f0 ev) table) with ((fun f0 => f0 ev) <$> table).
  by rewrite list_lookup_fmap, Hlook.
Qed.

(** [Dispatch<E>] is instantiable when [E] derives from [fsm::Event] and
    the directive of every declared state can be executed. *)
Lemma Dispatch_builds (E : Ty) :
  is_base_of_Event E = true ->
  (forall T, T ∈ States ->
     exists exec, Execute (fst (InvokeHandle T E)) = Built exec) ->
  exists f, Dispatch E = Built f.
Proof.
  intros HE Hall. unfold fsm.Dispatch, IsDerivedFromEvent, ValidateType.
  simpl. rewrite HE. simpl.
  destruct (build_all_Built
              (passEventToState LIBFSM_DEBUG is_base_of_State members States E)
              States) as [table ->]; [|by eexists].
  intros T HT. unfold passEventToState.
  destruct (Hall T HT) as [exec ->]. by eexists.
Qed.

(** In a pack of distinct classes every declared state is a legal target. *)
Lemma Transition_builds_NoDup (X : Ty) :
  NoDup States -> X ∈ States -> is_base_of_State X = true ->
  exists f, Transition X = Built f.
Proof.
  intros Hnd Hin HX. apply list_elem_of_lookup_1 in Hin as [j Hj].
  apply (Transition_builds X j HX). by apply index_of_NoDup.
Qed.

(** *** Preservation of the validity of the active reference *)

Lemma Transition_valid (X : Ty) f (m : Machine) :
  Transition X = Built f -> valid m = true ->
  exists m', f m = Some m' /\ valid m' = true.
Proof.
  intros Hf Hv. destruct (valid_active m Hv) as (Hlen & i & T & o & Hact).
  destruct (Transition_run X f m i T o Hf Hlen Hact) as (j & o' & Hj & _ & ->).
  eexists. split; [done|].
  apply (valid_intro _ j); simpl; [done| |by rewrite !length_insert].
  eapply lookup_lt_Some. by apply index_of_lookup.
Qed.

Lemma Execute_valid (d : Directive Ty) exec (m : Machine) :
  Execute d = Built exec -> valid m = true ->
  exists m', exec m = Some m' /\ valid m' = true.
Proof.
  destruct d as [|X]; unfold fsm.Execute.
  - intros [= <-] Hv. eexists. split; [done|].
    destruct LIBFSM_DEBUG; [|done]. exact Hv.
  - destruct (IsDerivedFromState is_base_of_State [X]); [|done].
    apply Transition_valid.
Qed.

Lemma Dispatch_valid (E : Ty) f (ev : Payload) (m : Machine) :
  Dispatch E = Built f -> valid m = true ->
  exists m', f ev m = Some m' /\ valid m' = true.
Proof.
  intros Hf Hv. destruct (valid_active m Hv) as (Hlen & i & T & o & Hact).
  destruct (Dispatch_run E f ev m i T o Hf Hact) as (exec & Hex & ->).
  destruct Hact as (Hc & HT & Ho).
  destruct (Handle (members T) E) as [h|] eqn:Hh.
  - destruct (InvokeHandle_handled T E h ev m i o Hh HT Ho) as [_ ->].
    apply (Execute_valid _ _ _ Hex).
    apply (valid_intro _ i); simpl; [done| |by rewrite length_insert].
    by eapply lookup_lt_Some.
  - rewrite (InvokeHandle_unhandled T E Hh). simpl.
    by apply (Execute_valid _ _ _ Hex).
Qed.

Lemma GetCurrentStateName_valid (m : Machine) :
  valid m = true ->
  exists s m', GetCurrentStateName m = Some (s, m') /\ valid m' = true.
Proof.
  intros Hv. destruct (valid_active m Hv) as (Hlen & i & T & o & Hact).
  rewrite (GetCurrentStateName_at m i T o Hact).
  do 2 eexists. split; [done|]. destruct Hact as (Hc & HT & Ho).
  apply (valid_intro _ i); simpl; [done| |by rewrite length_insert].
  by eapply lookup_lt_Some.
Qed.

Lemma StateMachine_Built_inv (m : Machine) :
  StateMachine = Built m ->
  IsDerivedFromState is_base_of_State States = true /\
  exists S1 rest, States = S1 :: rest /\
    m = {| states := map (fun T => ctor (members T)) States;
           currentState := {| index := 0; ptr := elem 0 |};
           calls := []; cout := [] |}.
Proof.
  unfold fsm.StateMachine.
  destruct (IsDerivedFromState is_base_of_State States); [|done].
  destruct States as [|S1 rest] eqn:HS; [done|].
  unfold variant_alternative.
  destruct (index_of S1 (S1 :: rest)) as [k|] eqn:Hk; [|done].
  apply index_of_head in Hk as ->. intros [= <-]. eauto.
Qed.

Lemma StateMachine_valid (m : Machine) :
  StateMachine = Built m -> valid m = true.
Proof.
  intros Hm. apply StateMachine_Built_inv in Hm as (_ & S1 & rest & HS & ->).
  apply (valid_intro _ 0); simpl; [done|rewrite HS; simpl; lia|].
  by rewrite length_map.
Qed.

Lemma reachable_valid (m : Machine) : reachable m -> valid m = true.
Proof.
  induction 1 as [m Hm|E f ev m m' _ IH Hf Hrun|X f m m' _ IH Hf Hrun
                 |m s m' _ IH Hrun].
  - by apply StateMachine_valid.
  - destruct (Dispatch_valid E f ev m Hf IH) as (m'' & Hrun' & Hv).
    by simplify_eq.
  - destruct (Transition_valid X f m Hf IH) as (m'' & Hrun' & Hv).
    by simplify_eq.
  - destruct (GetCurrentStateName_valid m IH) as (s' & m'' & Hrun' & Hv).
    by simplify_eq.
Qed.

(** *** The active reference after a directive is executed *)

Lemma Execute_outcome (d : Directive Ty) exec (m : Machine) i T o :
  Execute d = Built exec ->
  length (states m) = length States -> active m i T o ->
  exists m', exec m = Some m' /\ directive_outcome d m m'.
Proof.
  destruct d as [|X]; unfold fsm.Execute.
  - intros [= <-] _ _. eexists. split; [done|]. simpl.
    by destruct LIBFSM_DEBUG.
  - destruct (IsDerivedFromState is_base_of_State [X]); [|done].
    intros Hf Hlen Hact.
    destruct (Transition_run X exec m i T o Hf Hlen Hact)
      as (j & o' & Hj & _ & ->).
    eexists. split; [done|]. by exists j.
Qed.

Lemma Dispatch_outcome (E : Ty) f (ev : Payload) (m : Machine) i T o :
  Dispatch E = Built f ->
  length (states m) = length States -> active m i T o ->
  exists m', f ev m = Some m' /\
             directive_outcome (fst (InvokeHandle T E)) m m'.
Proof.
  intros Hf Hlen Hact.
  destruct (Dispatch_run E f ev m i T o Hf Hact) as (exec & Hex & ->).
  destruct Hact as (Hc & HT & Ho).
  destruct (Handle (members T) E) as [h|] eqn:Hh.
  - destruct (InvokeHandle_handled T E h ev m i o Hh HT Ho) as [Hret ->].
    rewrite Hret in *.
    eapply (Execute_outcome _ _ _ i T (self (handle_body h ev o))) in Hex
      as (m' & Hrun & Hout).
    + exists m'. split; [done|]. by destruct (handle_ret h).
    + simpl. by rewrite length_insert.
    + split; [exact Hc|]. split; [exact HT|]. simpl.
      apply list_lookup_insert_eq. by eapply lookup_lt_Some.
  - rewrite (InvokeHandle_unhandled T E Hh) in *.
    unfold InvokeHandleImpl_double, fst, snd in *.
    by apply (Execute_outcome NullTransition _ _ i T o Hex).
Qed.

(** On a reachable machine the discriminant is the position [std::get]
    assigns to the class of the active object. *)
Lemma reachable_canonical (m : Machine) i T o :
  reachable m -> active m i T o -> std_get States T = Some i.
Proof.
  intros Hr. revert i T o.
  induction Hr as [m Hm|E f ev m m' Hr IH Hf Hrun|X f m m' Hr IH Hf Hrun
                  |m s m' Hr IH Hrun]; intros i T o Hact.
  - unfold fsm.StateMachine in Hm.
    destruct (IsDerivedFromState is_base_of_State States); [|done].
    destruct Hact as (Hc & HT & _). unfold variant_alternative, std_get in *.
    destruct States as [|S1 rest]; [done|].
    destruct (index_of S1 (S1 :: rest)) as [k|] eqn:Hk; [|done].
    injection Hm as <-. simpl in Hc.
    pose proof (index_of_head _ _ _ Hk) as Hk0. subst k.
    injection Hc as <-. simpl in HT. by injection HT as <-.
  - pose proof (reachable_valid m Hr) as Hv.
    destruct (valid_active m Hv) as (Hlen & i0 & T0 & o0 & Hact0).
    destruct (Dispatch_outcome E f ev m i0 T0 o0 Hf Hlen Hact0)
      as (m'' & Hrun' & Hout).
    assert (m'' = m') as -> by congruence.
    destruct Hact as (Hc & HT & Ho).
    destruct (fst (InvokeHandle T0 E)) as [|X]; simpl in Hout.
    + destruct Hact0 as (Hc0 & HT0 & Ho0).
      rewrite Hout, Hc0 in Hc. injection Hc as <-.
      apply (IH i0 T o0). split; [done|]. by split.
    + destruct Hout as (j & Hj & Hc'). rewrite Hc' in Hc. injection Hc as <-.
      pose proof (index_of_lookup _ _ _ Hj). by simplify_eq.
  - pose proof (reachable_valid m Hr) as Hv.
    destruct (valid_active m Hv) as (Hlen & i0 & T0 & o0 & Hact0).
    destruct (Transition_run X f m i0 T0 o0 Hf Hlen Hact0)
      as (j & o' & Hj & _ & Hrun').
    rewrite Hrun' in Hrun. injection Hrun as <-.
    destruct Hact as (Hc & HT & Ho). simpl in Hc. injection Hc as <-.
    pose proof (index_of_lookup _ _ _ Hj). by simplify_eq.
  - pose proof (reachable_valid m Hr) as Hv.
    destruct (valid_active m Hv) as (Hlen & i0 & T0 & o0 & Hact0).
    rewrite (GetCurrentStateName_at m i0 T0 o0 Hact0) in Hrun.
    injection Hrun as _ <-.
    destruct Hact0 as (Hc0 & HT0 & Ho0).
    destruct Hact as (Hc & HT & Ho). simpl in Hc.
    rewrite Hc0 in Hc. injection Hc as <-.
    apply (IH i0 T o0). split; [done|]. by split.
Qed.

(** ** The statements of the specification *)

(** C1.  Executing [TransitionTo<X>] is the same code as [Transition<X>()].
    For a target [X] that [std::get<X>] finds in the tuple, on every machine
    whose active reference is valid, it returns, and the machine it returns
    differs from the old one in exactly this: [OnStateExit] was called on the
    object that was active, the active reference designates the object of
    [X] that was already in the tuple, and [OnStateEnter] was then called on
    that object.  The record of calls grows by these two calls, exit first.
    When [X] is the class of the active object the two calls go to the same
    object: the entry hook runs on what the exit hook left. *)
Theorem TransitionTo_Execute_exit_switch_enter (X : Ty) (j : nat) (m : Machine) :
  IsDerivedFromState is_base_of_State States = true ->
  std_get States X = Some j ->
  valid m = true ->
  exists f i T o o',
    Execute (TransitionTo X) = Built f /\
    Transition X = Built f /\
    active m i T o /\
    <[i:=self (OnStateExit (members T) o)]> (states m) !! j = Some o' /\
    f m = Some
      {| states :=
           <[j:=self (OnStateEnter (members X) o')]>
             (<[i:=self (OnStateExit (members T) o)]> (states m));
         currentState := {| index := j; ptr := elem j |};
         calls := calls m ++
                    [call_OnStateExit T (elem i); call_OnStateEnter X (elem j)];
         cout := cout m ++ written (OnStateExit (members T) o) ++
                   written (OnStateEnter (members X) o') |} /\
    (T = X -> j = i /\ o' = self (OnStateExit (members T) o)).
Proof.
  intros Hcls Hj Hv.
  pose proof (index_of_lookup _ _ _ Hj) as HjX.
  pose proof (IsDerivedFromState_elem X j Hcls HjX) as HX.
  destruct (Transition_builds X j HX Hj) as [f Hf].
  destruct (valid_active m Hv) as (Hlen & i & T & o & Hact).
  destruct (Transition_run X f m i T o Hf Hlen Hact)
    as (j' & o' & Hj' & Ho' & Hrun).
  assert (j' = j) as -> by congruence.
  exists f, i, T, o, o'. split.
  { unfold fsm.Execute, IsDerivedFromState, ValidateType. simpl.
    by rewrite HX. }
  do 4 (split; [done|]).
  intros ->. destruct Hact as (Hc & HT & Ho).
  pose proof (index_of_unique _ _ _ _ Hj HT) as ->.
  split; [done|].
  rewrite list_lookup_insert_eq in Ho' by (by eapply lookup_lt_Some).
  congruence.
Qed.

(** C2.  When the active object has class [T] and [state->Handle(event)] is
    ill-formed for events of type [E], handler resolution gives
    [NullTransition] and [Dispatch] returns a machine: the state objects, the
    active reference and the record of calls are those of the machine it
    was given, so no hook and no handler ran, and [GetCurrentStateName]
    answers the same string as before.  Only with [LIBFSM_DEBUG] is a line
    written; without it the machine is returned as it was. *)
Theorem Dispatch_unhandled_event (E : Ty) f (ev : Payload) (m : Machine) i T o :
  Dispatch E = Built f ->
  active m i T o ->
  Handle (members T) E = None ->
  fst (InvokeHandle T E) = NullTransition /\
  exists m',
    f ev m = Some m' /\
    states m' = states m /\
    currentState m' = currentState m /\
    calls m' = calls m /\
    hook_calls m' = hook_calls m /\
    (LIBFSM_DEBUG = false -> m' = m) /\
    exists s, fst <$> GetCurrentStateName m = Some s /\
              fst <$> GetCurrentStateName m' = Some s.
Proof.
  intros Hf Hact Hh.
  destruct (Dispatch_run E f ev m i T o Hf Hact) as (exec & Hex & ->).
  rewrite (InvokeHandle_unhandled T E Hh) in *.
  unfold InvokeHandleImpl_double, fst, snd in *.
  split; [done|]. injection Hex as <-.
  eexists. split; [done|].
  assert (forall m0 : Machine, states m0 = states m ->
            currentState m0 = currentState m ->
            fst <$> GetCurrentStateName m0 =
              Some (returned (Name (members T) o))) as Hname.
  { intros m0 Hs Hc0. destruct Hact as (Hc & HT & Ho).
    rewrite (GetCurrentStateName_at m0 i T o); [done|].
    split; [congruence|]. split; [done|congruence]. }
  destruct LIBFSM_DEBUG; simpl.
  - do 4 (split; [done|]). split; [done|].
    exists (returned (Name (members T) o)). split; by apply Hname.
  - do 4 (split; [done|]). split; [done|].
    exists (returned (Name (members T) o)). split; by apply Hname.
Qed.

(** C3.  A specialization whose pack starts with [S1], whose states all
    derive from [fsm::State] and in which [S1] is not repeated can be
    constructed.  The fresh machine holds one default-constructed object per
    declared state, in declaration order; its active reference is the first
    tuple element, the object of [S1]; [GetCurrentStateName] returns what
    [S1]'s [Name] returns on that object; and no call has been made on any
    state object, so no [OnStateEnter] has run. *)
Theorem StateMachine_fresh (S1 : Ty) (rest : list Ty) :
  States = S1 :: rest ->
  IsDerivedFromState is_base_of_State States = true ->
  S1 ∉ rest ->
  exists m,
    StateMachine = Built m /\
    states m = map (fun T => ctor (members T)) States /\
    length (states m) = length States /\
    active m 0 S1 (ctor (members S1)) /\
    fst <$> GetCurrentStateName m =
      Some (returned (Name (members S1) (ctor (members S1)))) /\
    calls m = [] /\
    (forall p, enter_count p m = 0).
Proof.
  intros HS Hcls Hnin.
  assert (StateMachine =
            Built {| states := map (fun T => ctor (members T)) States;
                     currentState := {| index := 0; ptr := elem 0 |};
                     calls := []; cout := [] |}) as Hm.
  { unfold fsm.StateMachine. rewrite Hcls. unfold variant_alternative.
    rewrite HS. simpl. rewrite decide_True by done.
    by rewrite decide_False by done. }
  eexists. split; [exact Hm|]. simpl.
  assert (active {| states := map (fun T => ctor (members T)) States;
                    currentState := {| index := 0; ptr := elem 0 |};
                    calls := []; cout := [] |} 0 S1 (ctor (members S1)))
    as Hact.
  { split; [done|]. by rewrite HS. }
  split; [done|]. split; [by rewrite length_map|].
  split; [done|]. split; [|done].
  by rewrite (GetCurrentStateName_at _ 0 S1 (ctor (members S1)) Hact).
Qed.

(** C4.  On every machine obtained from a fresh one by [Dispatch],
    [Transition<X>] and [GetCurrentStateName] the active reference is valid:
    the stored pointer is not null, it is the address of a tuple element
    that holds an object, and the discriminant names the declared class of
    that object.  Each of the three operations returns on such a machine,
    and the machine it returns has a valid active reference again. *)
Theorem active_reference_invariant (m : Machine) :
  reachable m ->
  valid m = true /\
  (exists i T o, active m i T o /\ T ∈ States) /\
  (forall E f ev, Dispatch E = Built f ->
     exists m', f ev m = Some m' /\ valid m' = true) /\
  (forall X f, Transition X = Built f ->
     exists m', f m = Some m' /\ valid m' = true) /\
  (exists s m', GetCurrentStateName m = Some (s, m') /\ valid m' = true).
Proof.
  intros Hr. pose proof (reachable_valid m Hr) as Hv.
  split; [done|]. split.
  { destruct (valid_active m Hv) as (_ & i & T & o & Hact).
    exists i, T, o. split; [done|]. destruct Hact as (_ & HT & _).
    by eapply list_elem_of_lookup_2. }
  split; [intros E f ev Hf; by apply (Dispatch_valid E)|].
  split; [intros X f Hf; by apply (Transition_valid X)|].
  by apply GetCurrentStateName_valid.
Qed.

(** C5.  On every reachable machine [GetCurrentStateName] returns the
    string that the [Name] member of the active object returns, called on
    that object through the stored pointer: the final overrider when the
    class overrides [Name], the base-class string otherwise.  The call is
    recorded and the active reference is left as it was. *)
Theorem GetCurrentStateName_is_Name (m : Machine) :
  reachable m ->
  exists i T o m',
    active m i T o /\
    GetCurrentStateName m = Some (returned (Name (members T) o), m') /\
    calls m' = calls m ++ [call_Name T (elem i)] /\
    currentState m' = currentState m /\
    (forall nm, Name_override (members T) = Some nm ->
       returned (Name (members T) o) = returned (nm o)) /\
    (Name_override (members T) = None ->
       returned (Name (members T) o) = "<Unnamed State>").
Proof.
  intros Hr. pose proof (reachable_valid m Hr) as Hv.
  destruct (valid_active m Hv) as (_ & i & T & o & Hact).
  exists i, T, o. eexists. split; [done|].
  split; [by apply GetCurrentStateName_at|]. simpl.
  do 2 (split; [done|]). unfold Name.
  split; [by intros nm ->|by intros ->].
Qed.

(** C6.  [Transition<X>] cannot be instantiated for a type that is not in
    the pack [States...].  When it can be instantiated, [X] is a declared
    state, the code is that of executing [TransitionTo<X>], and on every
    machine with a valid active reference it returns: exit hook on the
    active object, switch to the object of [X], entry hook on it. *)
Theorem Transition_checked_at_build_time (X : Ty) :
  (X ∉ States -> Transition X = Rejected) /\
  (forall f, Transition X = Built f ->
     X ∈ States /\
     Execute (TransitionTo X) = Built f /\
     forall m, valid m = true ->
       exists i T o j o',
         active m i T o /\
         States !! j = Some X /\
         <[i:=self (OnStateExit (members T) o)]> (states m) !! j = Some o' /\
         f m = Some
           {| states :=
                <[j:=self (OnStateEnter (members X) o')]>
                  (<[i:=self (OnStateExit (members T) o)]> (states m));
              currentState := {| index := j; ptr := elem j |};
              calls := calls m ++
                         [call_OnStateExit T (elem i);
                          call_OnStateEnter X (elem j)];
              cout := cout m ++ written (OnStateExit (members T) o) ++
                        written (OnStateEnter (members X) o') |}).
Proof.
  split.
  - intros Hnin. unfold fsm.Transition, variant_alternative, std_get.
    rewrite (index_of_not_elem X States Hnin).
    by destruct (IsDerivedFromState is_base_of_State [X]).
  - intros f Hf.
    destruct (Transition_Built_inv X f Hf) as (HX & j & Hj).
    pose proof (index_of_lookup _ _ _ Hj) as HjX.
    split; [by eapply list_elem_of_lookup_2|]. split.
    { unfold fsm.Execute, IsDerivedFromState, ValidateType. simpl.
      by rewrite HX. }
    intros m Hv. destruct (valid_active m Hv) as (Hlen & i & T & o & Hact).
    destruct (Transition_run X f m i T o Hf Hlen Hact)
      as (j' & o' & Hj' & Ho' & Hrun).
    assert (j' = j) as -> by congruence.
    by exists i, T, o, j, o'.
Qed.

(** C9.  When the class of the active object does not override [Name],
    [GetCurrentStateName] returns the string of the base class,
    ["<Unnamed State>"]. *)
Theorem GetCurrentStateName_unnamed (m : Machine) i T o :
  active m i T o ->
  Name_override (members T) = None ->
  fst <$> GetCurrentStateName m = Some "<Unnamed State>".
Proof.
  intros Hact Hnone. rewrite (GetCurrentStateName_at m i T o Hact).
  simpl. unfold Name. by rewrite Hnone.
Qed.

(** C10.  The directive [Dispatch] executes is the return type of
    [InvokeHandle] at the class of the active object and the type of the
    event.  Two reachable machines of one specialization whose active
    objects have the same class [T], given events of the same type [E],
    both return, both end where that directive leads, and so end with the
    same active reference, whatever the data of their objects, the calls
    made before and the contents of the two events. *)
Theorem Dispatch_type_driven (E : Ty) f (ev1 ev2 : Payload)
    (m1 m2 : Machine) i1 i2 T o1 o2 :
  Dispatch E = Built f ->
  reachable m1 -> reachable m2 ->
  active m1 i1 T o1 -> active m2 i2 T o2 ->
  exists m1' m2',
    f ev1 m1 = Some m1' /\ f ev2 m2 = Some m2' /\
    directive_outcome (fst (InvokeHandle T E)) m1 m1' /\
    directive_outcome (fst (InvokeHandle T E)) m2 m2' /\
    currentState m1' = currentState m2'.
Proof.
  intros Hf Hr1 Hr2 Hact1 Hact2.
  pose proof (reachable_canonical m1 i1 T o1 Hr1 Hact1) as Hi1.
  pose proof (reachable_canonical m2 i2 T o2 Hr2 Hact2) as Hi2.
  assert (i2 = i1) as -> by congruence.
  destruct (valid_active m1 (reachable_valid m1 Hr1)) as (Hlen1 & _).
  destruct (valid_active m2 (reachable_valid m2 Hr2)) as (Hlen2 & _).
  destruct (Dispatch_outcome E f ev1 m1 i1 T o1 Hf Hlen1 Hact1)
    as (m1' & Hrun1 & Hout1).
  destruct (Dispatch_outcome E f ev2 m2 i1 T o2 Hf Hlen2 Hact2)
    as (m2' & Hrun2 & Hout2).
  exists m1', m2'. do 4 (split; [done|]).
  destruct Hact1 as (Hc1 & _). destruct Hact2 as (Hc2 & _).
  destruct (fst (InvokeHandle T E)) as [|X]; simpl in *.
  - congruence.
  - destruct Hout1 as (j1 & Hj1 & ->). destruct Hout2 as (j2 & Hj2 & ->).
    congruence.
Qed.

End Facts.

(** ** The machines of the repository *)

(** The door as constructed: both objects exist, [ClosedState] is active. *)
Lemma TransitionTo_Execute_exit_switch_enter_witness :
  exists door f door',
    Door.Door = Built door /\
    Execute false Door.is_base_of_State Door.members Door.States
      (TransitionTo Door.ClosedState) = Built f /\
    Transition Door.is_base_of_State Door.members Door.States
      Door.ClosedState = Built f /\
    f door = Some door' /\
    currentState door' = {| index := 0; ptr := elem 0 |} /\
    calls door' = [call_OnStateExit Door.ClosedState (elem 0);
                   call_OnStateEnter Door.ClosedState (elem 0)].
Proof.
  pose (door := {| states := [tt; tt];
                   currentState := {| index := 0; ptr := elem 0 |};
                   calls := @nil (Call Door.Ty); cout := [] |}).
  destruct (TransitionTo_Execute_exit_switch_enter false
              Door.is_base_of_State Door.members Door.States
              Door.ClosedState 0 door)
    as (f & i & T & o & o' & Hex & Htr & Hact & Ho' & Hrun & Hself);
    [reflexivity|reflexivity|reflexivity|].
  destruct Hact as (Hc & HT & Ho). simpl in Hc. injection Hc as <-.
  simpl in HT. injection HT as <-.
  exists door, f. eexists. split; [reflexivity|].
  split; [exact Hex|]. split; [exact Htr|]. split; [exact Hrun|].
  split; reflexivity.
Defined.

(** The test [DispatchEventIgnored]: [State1] has no [Handle] for
    [Event2]. *)
Lemma Dispatch_unhandled_event_witness :
  exists machine f,
    StateMachineTest.StateMachine = Built machine /\
    StateMachineTest.Dispatch StateMachineTest.Event2 = Built f /\
    f tt machine = Some machine /\
    fst <$> StateMachineTest.GetCurrentStateName machine = Some "State1".
Proof.
  pose (machine := {| states := [tt; tt];
                      currentState := {| index := 0; ptr := elem 0 |};
                      calls := @nil (Call StateMachineTest.Ty); cout := [] |}).
  destruct (StateMachineTest.Dispatch StateMachineTest.Event2) as [f|] eqn:Hf;
    [|discriminate Hf].
  destruct (Dispatch_unhandled_event false StateMachineTest.is_base_of_State
              StateMachineTest.is_base_of_Event StateMachineTest.members
              StateMachineTest.States StateMachineTest.Event2 f tt machine
              0 StateMachineTest.State1 tt Hf
              (conj eq_refl (conj eq_refl eq_refl)) eq_refl)
    as (_ & m' & Hrun & _ & _ & _ & _ & Hsame & _).
  exists machine, f. split; [reflexivity|]. split; [reflexivity|].
  split; [|reflexivity]. rewrite Hrun. f_equal. by apply Hsame.
Defined.

(** The door: [ClosedState] is the first declared state. *)
Lemma StateMachine_fresh_witness :
  exists door,
    Door.Door = Built door /\
    states door = [tt; tt] /\
    currentState door = {| index := 0; ptr := elem 0 |} /\
    fst <$> Door.GetCurrentStateName door = Some "ClosedState" /\
    calls door = [].
Proof.
  destruct (StateMachine_fresh Door.is_base_of_State Door.members Door.States
              Door.ClosedState [Door.OpenState] eq_refl eq_refl)
    as (door & Hd & Hst & _ & (Hc & _) & Hname & Hcalls & _).
  { intros Hin. apply list_elem_of_singleton in Hin. discriminate Hin. }
  exists door. split; [exact Hd|]. split; [exact Hst|].
  split; [exact Hc|]. split; [exact Hname|exact Hcalls].
Defined.

(** The door after [Dispatch(OpenEvent{})]. *)
Lemma active_reference_invariant_witness :
  exists door,
    Door.after_open = Some door /\
    active_reference_valid Door.States door = true /\
    active Door.States door 1 Door.OpenState tt.
Proof.
  pose (fresh := {| states := [tt; tt];
                    currentState := {| index := 0; ptr := elem 0 |};
                    calls := @nil (Call Door.Ty); cout := [] |}).
  destruct (Door.Dispatch Door.OpenEvent) as [f|] eqn:Hf; [|discriminate Hf].
  destruct (f tt fresh) as [door|] eqn:Hrun;
    [|injection Hf as <-; discriminate Hrun].
  destruct (active_reference_invariant false Door.is_base_of_State
              Door.is_base_of_Event Door.members Door.States door)
    as (Hvalid & _).
  { eapply (reachable_Dispatch _ _ _ _ _ Door.OpenEvent f tt fresh).
    - apply reachable_fresh. reflexivity.
    - exact Hf.
    - exact Hrun. }
  exists door. injection Hf as <-. injection Hrun as <-.
  split; [reflexivity|]. split; [exact Hvalid|]. repeat split.
Defined.

(** The machine of the unit test as constructed: [State1] overrides
    [Name]. *)
Lemma GetCurrentStateName_is_Name_witness :
  exists machine machine',
    StateMachineTest.StateMachine = Built machine /\
    StateMachineTest.GetCurrentStateName machine = Some ("State1", machine') /\
    calls machine' = [call_Name StateMachineTest.State1 (elem 0)].
Proof.
  pose (machine := {| states := [tt; tt];
                      currentState := {| index := 0; ptr := elem 0 |};
                      calls := @nil (Call StateMachineTest.Ty); cout := [] |}).
  destruct (GetCurrentStateName_is_Name false StateMachineTest.is_base_of_State
              StateMachineTest.is_base_of_Event StateMachineTest.members
              StateMachineTest.States machine)
    as (i & T & o & machine' & Hact & Hname & Hcalls & _).
  { apply reachable_fresh. reflexivity. }
  destruct Hact as (Hc & HT & Ho). simpl in Hc. injection Hc as <-.
  simpl in HT. injection HT as <-.
  exists machine, machine'. split; [reflexivity|].
  split; [exact Hname|exact Hcalls].
Defined.

(** The door: [Transition<OpenEvent>] is refused, [Transition<OpenState>]
    runs on the fresh door. *)
Lemma Transition_checked_at_build_time_witness :
  Transition Door.is_base_of_State Door.members Door.States Door.OpenEvent
    = Rejected /\
  exists door f door',
    Door.Door = Built door /\
    Transition Door.is_base_of_State Door.members Door.States Door.OpenState
      = Built f /\
    f door = Some door' /\
    currentState door' = {| index := 1; ptr := elem 1 |}.
Proof.
  split.
  - apply (Transition_checked_at_build_time false Door.is_base_of_State
             Door.members Door.States Door.OpenEvent).
    intros Hin. unfold Door.States in Hin.
    repeat (apply elem_of_cons in Hin as [Hin|Hin]; [discriminate Hin|]).
    by apply elem_of_nil in Hin.
  - pose (door := {| states := [tt; tt];
                     currentState := {| index := 0; ptr := elem 0 |};
                     calls := @nil (Call Door.Ty); cout := [] |}).
    destruct (Transition Door.is_base_of_State Door.members Door.States
                Door.OpenState) as [f|] eqn:Hf; [|discriminate Hf].
    destruct (Transition_checked_at_build_time false Door.is_base_of_State
                Door.members Door.States Door.OpenState) as [_ Hbuilt].
    destruct (Hbuilt f Hf) as (_ & _ & Hrun).
    destruct (Hrun door eq_refl)
      as (i & T & o & j & o' & Hact & HjX & Ho' & Hdoor').
    destruct j as [|[|j]]; [discriminate HjX| |].
    + exists door, f. eexists. split; [reflexivity|]. split; [reflexivity|].
      split; [exact Hdoor'|reflexivity].
    + discriminate HjX.
Defined.

(** The TCP machine as constructed: [ClosedState] does not override
    [Name], and the string returned is not the name of the class. *)
Lemma GetCurrentStateName_unnamed_witness :
  exists stateMachine,
    Tcp.TcpStateMachine = Built stateMachine /\
    fst <$> Tcp.GetCurrentStateName stateMachine = Some "<Unnamed State>" /\
    fst <$> Tcp.GetCurrentStateName stateMachine <> Some "ClosedState".
Proof.
  pose (stateMachine :=
          {| states := map (fun T => ctor (Tcp.members T)) Tcp.States;
             currentState := {| index := 0; ptr := elem 0 |};
             calls := @nil (Call Tcp.Ty); cout := [] |}).
  pose proof (GetCurrentStateName_unnamed Tcp.members Tcp.States stateMachine
                0 Tcp.ClosedState tt (conj eq_refl (conj eq_refl eq_refl))
                eq_refl) as Hname.
  exists stateMachine. split; [reflexivity|]. split; [exact Hname|].
  change (Tcp.GetCurrentStateName stateMachine)
    with (GetCurrentStateName Tcp.members Tcp.States stateMachine).
  rewrite Hname. discriminate.
Defined.

(** Two doors with [ClosedState] active, a fresh one and one that was
    opened and closed again, both given an [OpenEvent]. *)
Lemma Dispatch_type_driven_witness :
  exists door1 door2 f door1' door2',
    Door.Door = Built door1 /\
    Door.after_close = Some door2 /\
    calls door1 <> calls door2 /\
    Door.Dispatch Door.OpenEvent = Built f /\
    f tt door1 = Some door1' /\
    f tt door2 = Some door2' /\
    currentState door1' = {| index := 1; ptr := elem 1 |} /\
    currentState door2' = {| index := 1; ptr := elem 1 |}.
Proof.
  pose (door1 := {| states := [tt; tt];
                    currentState := {| index := 0; ptr := elem 0 |};
                    calls := @nil (Call Door.Ty); cout := [] |}).
  destruct (Door.Dispatch Door.OpenEvent) as [f|] eqn:Hf; [|discriminate Hf].
  destruct (Door.Dispatch Door.CloseEvent) as [g|] eqn:Hg; [|discriminate Hg].
  destruct (f tt door1) as [opened|] eqn:Hopened;
    [|injection Hf as <-; discriminate Hopened].
  destruct (g tt opened) as [door2|] eqn:Hdoor2;
    [|injection Hf as <-; injection Hg as <-; injection Hopened as <-;
      discriminate Hdoor2].
  assert (reachable false Door.is_base_of_State Door.is_base_of_Event
            Door.members Door.States door1) as Hr1.
  { apply reachable_fresh. reflexivity. }
  assert (reachable false Door.is_base_of_State Door.is_base_of_Event
            Door.members Door.States door2) as Hr2.
  { eapply (reachable_Dispatch _ _ _ _ _ Door.CloseEvent g tt opened);
      [|exact Hg|exact Hdoor2].
    eapply (reachable_Dispatch _ _ _ _ _ Door.OpenEvent f tt door1);
      [exact Hr1|exact Hf|exact Hopened]. }
  assert (active Door.States door2 0 Door.ClosedState tt) as Hact2.
  { injection Hf as <-. injection Hg as <-. injection Hopened as <-.
    injection Hdoor2 as <-. repeat split. }
  destruct (Dispatch_type_driven false Door.is_base_of_State
              Door.is_base_of_Event Door.members Door.States Door.OpenEvent
              f tt tt door1 door2 0 0 Door.ClosedState tt tt Hf Hr1 Hr2
              (conj eq_refl (conj eq_refl eq_refl)) Hact2)
    as (door1' & door2' & Hrun1 & Hrun2 & Hout1 & _ & Hsame).
  exists door1, door2, f, door1', door2'.
  assert (currentState door1' = {| index := 1; ptr := elem 1 |}) as Hc1.
  { destruct Hout1 as (j & Hj & Hc1). by injection Hj as <-. }
  split; [reflexivity|].
  split.
  { injection Hf as <-. injection Hg as <-. injection Hopened as <-.
    injection Hdoor2 as <-. reflexivity. }
  split.
  { injection Hf as <-. injection Hg as <-. injection Hopened as <-.
    injection Hdoor2 as <-. discriminate. }
  split; [reflexivity|]. split; [exact Hrun1|]. split; [exact Hrun2|].
  split; [exact Hc1|]. by rewrite <- Hsame.
Defined.

(** ** The unit tests and the two demo programs *)

(** Both tests of [StateMachineTest.cpp] pass their assertions. *)
Example StateMachineTest_DispatchSingle :
  StateMachineTest.DispatchSingle = Some "State2".
Proof. vm_compute. reflexivity. Qed.

Example StateMachineTest_DispatchEventIgnored :
  StateMachineTest.DispatchEventIgnored = Some "State1".
Proof. vm_compute. reflexivity. Qed.


(** C7.  The door of [src/demos/door/main.cpp]: a fresh door reports
    ["ClosedState"], after [Dispatch(OpenEvent{})] it reports
    ["OpenState"], after a further [Dispatch(CloseEvent{})] it reports
    ["ClosedState"] again, which is the line [main] writes.  The names are
    the class names that [FSM_STATE_BEGIN] stringizes. *)
Theorem Door_scenario :
  Door.name_of Door.fresh = Some "ClosedState" /\
  Door.name_of Door.after_open = Some "OpenState" /\
  Door.name_of Door.after_close = Some "ClosedState" /\
  Door.main = Some ["ClosedState"].
Proof. vm_compute. repeat split. Qed.

(** The door never reports the strings ["Closed"] and ["Open"]. *)
Lemma Door_scenario_short_names_refuted :
  ~ (Door.name_of Door.fresh = Some "Closed" /\
     Door.name_of Door.after_open = Some "Open" /\
     Door.name_of Door.after_close = Some "Closed").
Proof. intros (Hfresh & _). vm_compute in Hfresh. discriminate Hfresh. Qed.

(** C8.  The machine of [src/demos/tcp/main.cpp] after
    [Dispatch(PassiveOpenEvent{})], [Dispatch(SendDataEvent{})] and
    [Dispatch(SynAckEvent{})]: the active object is the one of
    [EstablishedState], its [OnStateEnter] was called exactly once since
    construction, and [GetCurrentStateName] returns ["<Unnamed State>"],
    because no class of this program overrides [Name]. *)
Theorem Tcp_scenario :
  exists stateMachine,
    Tcp.main = Some stateMachine /\
    active Tcp.States stateMachine 4 Tcp.EstablishedState tt /\
    fst <$> Tcp.GetCurrentStateName stateMachine = Some "<Unnamed State>" /\
    enter_count Tcp.established stateMachine = 1 /\
    cout stateMachine =
      ["Got PassiveOpenEvent"; "Sending data"; "Got synack";
       "Entering EstablishedState"].
Proof.
  exists {| states := [tt; tt; tt; tt; tt; tt; tt; tt; tt; tt; tt];
            currentState := {| index := 4; ptr := elem 4 |};
            calls :=
              [call_Handle Tcp.ClosedState Tcp.PassiveOpenEvent (elem 0);
               call_OnStateExit Tcp.ClosedState (elem 0);
               call_OnStateEnter Tcp.ListenState (elem 1);
               call_Handle Tcp.ListenState Tcp.SendDataEvent (elem 1);
               call_OnStateExit Tcp.ListenState (elem 1);
               call_OnStateEnter Tcp.SynSentState (elem 3);
               call_Handle Tcp.SynSentState Tcp.SynAckEvent (elem 3);
               call_OnStateExit Tcp.SynSentState (elem 3);
               call_OnStateEnter Tcp.EstablishedState (elem 4)];
            cout := ["Got PassiveOpenEvent"; "Sending data"; "Got synack";
                     "Entering EstablishedState"] |}.
  vm_compute. repeat split.
Qed.

(** The TCP machine does not report ["Established"]. *)
Lemma Tcp_scenario_name_refuted :
  ~ (exists stateMachine,
       Tcp.main = Some stateMachine /\
       fst <$> Tcp.GetCurrentStateName stateMachine = Some "Established" /\
       enter_count Tcp.established stateMachine = 1).
Proof.
  intros (stateMachine & Hmain & Hname & _).
  vm_compute in Hmain. injection Hmain as <-.
  vm_compute in Hname. discriminate Hname.
Qed.

(** ** Further facts about the machine template *)

Section MoreFacts.
Context {Ty : Type} `{!EqDecision Ty} {Obj Payload : Type}.
Variable LIBFSM_DEBUG : bool.
Variable is_base_of_State is_base_of_Event : Ty -> bool.
Variable members : Ty -> StateClass Ty Obj Payload.
Variable States : list Ty.

#[local] Abbreviation Machine := (Machine Ty Obj).
#[local] Abbreviation valid := (active_reference_valid States).
#[local] Abbreviation active := (active States).
#[local] Abbreviation Transition :=
  (Transition is_base_of_State members States).
#[local] Abbreviation Execute :=
  (Execute LIBFSM_DEBUG is_base_of_State members States).
#[local] Abbreviation InvokeHandle := (InvokeHandle members States).
#[local] Abbreviation Dispatch :=
  (Dispatch LIBFSM_DEBUG is_base_of_State is_base_of_Event members States).
#[local] Abbreviation GetCurrentStateName :=
  (GetCurrentStateName members States).
#[local] Abbreviation StateMachine :=
  (StateMachine is_base_of_State members States).
#[local] Abbreviation reachable :=
  (reachable LIBFSM_DEBUG is_base_of_State is_base_of_Event members States).

Lemma Execute_TransitionTo (X : Ty) : Execute (TransitionTo X) = Transition X.
Proof.
  unfold fsm.Execute, fsm.Transition.
  by destruct (IsDerivedFromState is_base_of_State [X]).
Qed.

(** X1.  A handled event whose handler returns [TransitionTo<X>]:
    [Dispatch] calls the handler on the active object, then the exit hook on
    that object, then the entry hook on the object of [X], in this order and
    nothing else; the exit hook sees what the handler left.  Afterwards
    [GetCurrentStateName] returns what [X]'s [Name] returns on the entered
    object. *)
Theorem Dispatch_handled_transition (E X : Ty) f (ev : Payload) (m : Machine)
    i T o h :
  Dispatch E = Built f ->
  length (states m) = length States ->
  active m i T o ->
  Handle (members T) E = Some h ->
  handle_ret h = TransitionTo X ->
  exists j o' m',
    std_get States X = Some j /\
    <[i:=self (OnStateExit (members T) (self (handle_body h ev o)))]>
      (states m) !! j = Some o' /\
    f ev m = Some m' /\
    m' =
      {| states :=
           <[j:=self (OnStateEnter (members X) o')]>
             (<[i:=self (OnStateExit (members T) (self (handle_body h ev o)))]>
                (states m));
         currentState := {| index := j; ptr := elem j |};
         calls := calls m ++
                    [call_Handle T E (elem i);
                     call_OnStateExit T (elem i);
                     call_OnStateEnter X (elem j)];
         cout := cout m ++ written (handle_body h ev o) ++
                   written (OnStateExit (members T)
                              (self (handle_body h ev o))) ++
                   written (OnStateEnter (members X) o') |} /\
    fst <$> GetCurrentStateName m' =
      Some (returned (Name (members X)
                        (self (OnStateEnter (members X) o')))).
Proof.
  intros Hf Hlen Hact Hh Hret.
  destruct (Dispatch_run LIBFSM_DEBUG is_base_of_State is_base_of_Event
              members States E f ev m i T o Hf Hact) as (exec & Hex & Hrun).
  destruct Hact as (Hc & HT & Ho).
  destruct (InvokeHandle_handled members States T E h ev m i o Hh HT Ho)
    as [Hfst Hsnd].
  rewrite Hfst, Hret, Execute_TransitionTo in Hex. rewrite Hsnd in Hrun.
  assert (i < length (states m)) as Hi by (by eapply lookup_lt_Some).
  edestruct (Transition_run is_base_of_State members States X exec
               {| states := <[i:=self (handle_body h ev o)]> (states m);
                  currentState := currentState m;
                  calls := calls m ++ [call_Handle T E (elem i)];
                  cout := cout m ++ written (handle_body h ev o) |}
               i T (self (handle_body h ev o)) Hex)
    as (j & o' & Hj & Ho' & Hexec).
  { simpl. by rewrite length_insert. }
  { split; [exact Hc|]. split; [exact HT|]. simpl.
    by apply list_lookup_insert_eq. }
  simpl in Ho', Hexec. rewrite list_insert_insert_eq in Ho', Hexec.
  exists j, o'. eexists. split; [exact Hj|]. split; [exact Ho'|].
  split; [by rewrite Hrun, Hexec|].
  split; [by rewrite <- !app_assoc|].
  pose proof (index_of_lookup _ _ _ Hj) as HjX.
  erewrite (GetCurrentStateName_at members States _ j X); [done|].
  split; [done|]. split; [done|]. simpl.
  apply list_lookup_insert_eq. rewrite length_insert.
  rewrite Hlen. by eapply lookup_lt_Some.
Qed.

(** X2.  A handled event whose handler returns [NullTransition]: the body
    of the handler runs on the active object, and that is all.  The active
    reference stays, no hook is called, and the only other output is the
    diagnostic line of a [LIBFSM_DEBUG] build. *)
Theorem Dispatch_handled_null (E : Ty) f (ev : Payload) (m : Machine)
    i T o h :
  Dispatch E = Built f ->
  active m i T o ->
  Handle (members T) E = Some h ->
  handle_ret h = NullTransition ->
  f ev m =
    Some {| states := <[i:=self (handle_body h ev o)]> (states m);
            currentState := currentState m;
            calls := calls m ++ [call_Handle T E (elem i)];
            cout := cout m ++ written (handle_body h ev o) ++
                      (if LIBFSM_DEBUG then ["Called Null Transition"]
                       else []) |}.
Proof.
  intros Hf Hact Hh Hret.
  destruct (Dispatch_run LIBFSM_DEBUG is_base_of_State is_base_of_Event
              members States E f ev m i T o Hf Hact) as (exec & Hex & Hrun).
  destruct Hact as (Hc & HT & Ho).
  destruct (InvokeHandle_handled members States T E h ev m i o Hh HT Ho)
    as [Hfst Hsnd].
  rewrite Hfst, Hret in Hex. rewrite Hsnd in Hrun.
  unfold fsm.Execute in Hex. injection Hex as <-. rewrite Hrun.
  destruct LIBFSM_DEBUG; unfold print; simpl.
  - by rewrite <- app_assoc.
  - by rewrite app_nil_r.
Qed.

(** The three ways [Dispatch] can go, by what the class of the active object
    declares for the event type. *)
Lemma Dispatch_cases (E : Ty) f (ev : Payload) (m : Machine) i T o :
  Dispatch E = Built f ->
  active m i T o ->
  match Handle (members T) E with
  | None =>
      f ev m =
        Some (if LIBFSM_DEBUG then print "Called Null Transition" m else m)
  | Some h =>
      let mh := {| states := <[i:=self (handle_body h ev o)]> (states m);
                   currentState := currentState m;
                   calls := calls m ++ [call_Handle T E (elem i)];
                   cout := cout m ++ written (handle_body h ev o) |} in
      match handle_ret h with
      | NullTransition =>
          f ev m =
            Some (if LIBFSM_DEBUG then print "Called Null Transition" mh
                  else mh)
      | TransitionTo X =>
          exists exec, Transition X = Built exec /\ f ev m = exec mh
      end
  end.
Proof.
  intros Hf Hact.
  destruct (Dispatch_run LIBFSM_DEBUG is_base_of_State is_base_of_Event
              members States E f ev m i T o Hf Hact) as (exec & Hex & Hrun).
  destruct Hact as (Hc & HT & Ho).
  destruct (Handle (members T) E) as [h|] eqn:Hh.
  - destruct (InvokeHandle_handled members States T E h ev m i o Hh HT Ho)
      as [Hfst Hsnd].
    rewrite Hfst in Hex. rewrite Hsnd in Hrun. simpl.
    destruct (handle_ret h) as [|X].
    + unfold fsm.Execute in Hex. injection Hex as <-. exact Hrun.
    + rewrite Execute_TransitionTo in Hex. by exists exec.
  - rewrite (InvokeHandle_unhandled members States T E Hh) in Hex, Hrun.
    unfold InvokeHandleImpl_double, fst, snd in Hex, Hrun.
    unfold fsm.Execute in Hex. injection Hex as <-. exact Hrun.
Qed.



Lemma Dispatch_Built_inv (E : Ty) f :
  Dispatch E = Built f ->
  is_base_of_Event E = true /\
  forall T X, T ∈ States -> fst (InvokeHandle T E) = TransitionTo X ->
    exists g, Transition X = Built g.
Proof.
  intros Hf. unfold fsm.Dispatch in Hf.
  unfold IsDerivedFromEvent, ValidateType in Hf. simpl in Hf.
  destruct (is_base_of_Event E); [|done]. split; [done|].
  simpl in Hf. destruct (build_all _) as [table|] eqn:Htab; [|done].
  intros T X HT Hret. apply list_elem_of_lookup_1 in HT as [i Hi].
  destruct (build_all_lookup _ _ _ i T Htab Hi) as (b & Hb & _).
  unfold passEventToState in Hb. rewrite Hret in Hb.
  rewrite Execute_TransitionTo in Hb.
  destruct (Transition X) as [g|]; [by exists g|done].
Qed.

Lemma Dispatch_builds_from (E : Ty) :
  is_base_of_Event E = true ->
  (forall T X, T ∈ States -> fst (InvokeHandle T E) = TransitionTo X ->
     exists g, Transition X = Built g) ->
  exists f, Dispatch E = Built f.
Proof.
  intros HE Hall.
  apply (Dispatch_builds LIBFSM_DEBUG is_base_of_State is_base_of_Event
           members States E HE).
  intros T HT. destruct (fst (InvokeHandle T E)) as [|X] eqn:Hret.
  - by eexists.
  - rewrite Execute_TransitionTo. by apply (Hall T X).
Qed.

(** X4.  [Dispatch<E>] can be instantiated exactly when [E] derives from
    [fsm::Event] and, for every declared state, also one that is never
    active, the transition its handler for [E] returns can be instantiated.
    [std::visit] instantiates the lambda at every alternative. *)
Theorem Dispatch_builds_iff (E : Ty) :
  (exists f, Dispatch E = Built f) <->
  is_base_of_Event E = true /\
  forall T X, T ∈ States -> fst (InvokeHandle T E) = TransitionTo X ->
    exists g, Transition X = Built g.
Proof.
  split.
  - intros [f Hf]. by apply (Dispatch_Built_inv E f).
  - intros [HE Hall]. by apply Dispatch_builds_from.
Qed.


(** X6.  [Dispatch] and [Transition<X>] never create or destroy a state
    object, and they leave alone every object except the one that was
    active before and the one that is active after. *)
Theorem Dispatch_Transition_frame (m m' : Machine) :
  valid m = true ->
  (exists E f ev, Dispatch E = Built f /\ f ev m = Some m') \/
  (exists X f, Transition X = Built f /\ f m = Some m') ->
  length (states m') = length (states m) /\
  forall k,
    elem k <> ptr (currentState m) -> elem k <> ptr (currentState m') ->
    states m' !! k = states m !! k.
Proof.
  intros Hv Hop.
  destruct (valid_active States m Hv) as (Hlen & i & T & o & Hact).
  assert (forall X exec mh oh,
            Transition X = Built exec ->
            length (states mh) = length States ->
            active mh i T oh ->
            (forall k, k <> i -> states mh !! k = states m !! k) ->
            exec mh = Some m' ->
            length (states m') = length (states m) /\
            forall k, elem k <> ptr (currentState m) ->
                      elem k <> ptr (currentState m') ->
                      states m' !! k = states m !! k) as Htrans.
  { intros X exec mh oh Hexec Hlenh Hacth Hsame Hrun.
    destruct (Transition_run is_base_of_State members States X exec mh i T oh
                Hexec Hlenh Hacth) as (j & o' & _ & _ & Hrun').
    rewrite Hrun' in Hrun. injection Hrun as <-. simpl.
    split; [rewrite !length_insert; congruence|].
    destruct Hact as (-> & _). simpl. intros k Hki Hkj.
    rewrite !list_lookup_insert_ne by congruence.
    apply Hsame. congruence. }
  destruct Hop as [(E & f & ev & Hf & Hrun)|(X & f & Hf & Hrun)].
  - pose proof (Dispatch_cases E f ev m i T o Hf Hact) as Hcases.
    destruct (Handle (members T) E) as [h|]; simpl in Hcases.
    + destruct (handle_ret h) as [|X].
      * rewrite Hcases in Hrun. injection Hrun as <-.
        destruct Hact as (Hc & _).
        destruct LIBFSM_DEBUG; simpl; rewrite length_insert;
          (split; [done|]); intros k Hki _; rewrite Hc in Hki;
          simpl in Hki; apply list_lookup_insert_ne; congruence.
      * destruct Hcases as (exec & Hexec & Hrun'). rewrite Hrun' in Hrun.
        destruct Hact as (Hc & HT & Ho).
        refine (Htrans X exec _ (self (handle_body h ev o)) Hexec _ _ _ Hrun).
        -- simpl. by rewrite length_insert.
        -- split; [exact Hc|]. split; [exact HT|]. simpl.
           apply list_lookup_insert_eq. by eapply lookup_lt_Some.
        -- intros k Hk. simpl. by apply list_lookup_insert_ne.
    + rewrite Hcases in Hrun. injection Hrun as <-.
      by destruct LIBFSM_DEBUG.
  - by apply (Htrans X f m o Hf Hlen Hact).
Qed.

(** X7.  When the class left does not override [OnStateExit] and the class
    entered does not override [OnStateEnter], [Transition<X>] changes the
    active reference and nothing else: every state object keeps its data
    and nothing is written. *)
Theorem Transition_default_hooks (X : Ty) f (m : Machine) i T o :
  Transition X = Built f ->
  length (states m) = length States ->
  active m i T o ->
  OnStateExit_override (members T) = None ->
  OnStateEnter_override (members X) = None ->
  exists j,
    States !! j = Some X /\
    f m = Some {| states := states m;
                  currentState := {| index := j; ptr := elem j |};
                  calls := calls m ++
                             [call_OnStateExit T (elem i);
                              call_OnStateEnter X (elem j)];
                  cout := cout m |}.
Proof.
  intros Hf Hlen Hact Hexit Henter.
  destruct (Transition_run is_base_of_State members States X f m i T o
              Hf Hlen Hact) as (j & o' & Hj & Ho' & Hrun).
  exists j. split; [by apply index_of_lookup|]. rewrite Hrun.
  unfold OnStateExit, OnStateEnter in *. rewrite Hexit, Henter in *.
  simpl in *. unfold self, State_OnStateExit, State_OnStateEnter in *.
  simpl in *. destruct Hact as (_ & _ & Ho).
  rewrite (list_insert_id (states m) i o Ho) in *.
  rewrite (list_insert_id (states m) j o' Ho').
  by rewrite !app_nil_r.
Qed.

(** X8.  A state class opened with [FSM_STATE_BEGIN(StateName)] reports
    the string [StateName]; asking for the name changes no state object,
    writes nothing and leaves the active reference where it is. *)
Theorem FSM_STATE_BEGIN_name (StateName : string) (m : Machine) i T o :
  active m i T o ->
  Name_override (members T) = Some (FSM_STATE_BEGIN_Name StateName) ->
  GetCurrentStateName m =
    Some (StateName,
          {| states := states m;
             currentState := currentState m;
             calls := calls m ++ [call_Name T (elem i)];
             cout := cout m |}).
Proof.
  intros Hact Hname.
  rewrite (GetCurrentStateName_at members States m i T o Hact).
  unfold Name. rewrite Hname. simpl. destruct Hact as (_ & _ & Ho).
  unfold self, returned, written, FSM_STATE_BEGIN_Name. simpl.
  by rewrite (list_insert_id (states m) i o Ho), app_nil_r.
Qed.

Lemma hook_chain_snoc (q r : Ptr) (T X : Ty) (l : list (Call Ty)) :
  forall p,
    hook_chain p l = Some q ->
    hook_chain p (l ++ [call_OnStateExit T q; call_OnStateEnter X r]) = Some r.
Proof.
  assert ((forall p, hook_chain p l = Some q ->
             hook_chain p (l ++ [call_OnStateExit T q; call_OnStateEnter X r])
               = Some r) /\
          (forall a p, hook_chain p (a :: l) = Some q ->
             hook_chain p
               ((a :: l) ++ [call_OnStateExit T q; call_OnStateEnter X r])
               = Some r)) as [H _]; [|exact H].
  induction l as [|b l [IH1 IH2]].
  - split.
    + intros p [= ->]. simpl. by rewrite decide_True.
    + intros a p Ha. by destruct a.
  - split; [by apply IH2|].
    intros a p Hab. destruct a as [Ta qa| | |]; try done.
    destruct b as [|Tb rb| |]; try done. simpl in *.
    destruct (decide (qa = p)); [|done]. by apply IH1.
Qed.

Lemma hook_calls_snoc_other (c : Call Ty) (l : list (Call Ty)) :
  is_hook c = false ->
  filter (fun c => is_hook c = true) (l ++ [c]) =
    filter (fun c => is_hook c = true) l.
Proof.
  intros Hc. rewrite filter_app, filter_cons_False; [|by rewrite Hc].
  by rewrite filter_nil, app_nil_r.
Qed.

Lemma hook_calls_snoc_pair (T X : Ty) (p q : Ptr) (l : list (Call Ty)) :
  filter (fun c => is_hook c = true)
    (l ++ [call_OnStateExit T p; call_OnStateEnter X q]) =
  filter (fun c => is_hook c = true) l ++
    [call_OnStateExit T p; call_OnStateEnter X q].
Proof.
  by rewrite filter_app.
Qed.

(** X9.  On every reachable machine the hook calls made since construction
    form one walk that starts on the first declared state and ends on the
    active object: each [OnStateExit] is on the object active at that time
    and is followed at once by one [OnStateEnter], on the object active
    from then on.  So no object is entered without another (or itself)
    being left, and the first state is never entered unless left first. *)
Theorem hook_calls_walk (m : Machine) :
  reachable m ->
  hook_chain (elem 0) (hook_calls m) = Some (ptr (currentState m)).
Proof.
  assert (forall X exec (m0 mh m1 : Machine) i T oh,
            Transition X = Built exec ->
            length (states mh) = length States ->
            active mh i T oh ->
            hook_calls mh = hook_calls m0 ->
            hook_chain (elem 0) (hook_calls m0) = Some (elem i) ->
            exec mh = Some m1 ->
            hook_chain (elem 0) (hook_calls m1) = Some (ptr (currentState m1)))
    as Htrans.
  { intros X exec m0 mh m1 i T oh Hexec Hlenh Hacth Hsame IH Hrun.
    destruct (Transition_run is_base_of_State members States X exec mh i T oh
                Hexec Hlenh Hacth) as (j & o' & _ & _ & Hrun').
    rewrite Hrun' in Hrun. injection Hrun as <-.
    unfold hook_calls in *. simpl. rewrite hook_calls_snoc_pair, Hsame.
    by apply hook_chain_snoc. }
  induction 1 as [m Hm|E f ev m m' Hr IH Hf Hrun|X f m m' Hr IH Hf Hrun
                 |m s m' Hr IH Hrun].
  - apply (StateMachine_Built_inv is_base_of_State members States) in Hm
      as (_ & S1 & rest & _ & ->). done.
  - pose proof (reachable_valid _ _ _ _ _ m Hr) as Hv.
    destruct (valid_active States m Hv) as (Hlen & i & T & o & Hact).
    pose proof (Dispatch_cases E f ev m i T o Hf Hact) as Hcases.
    destruct Hact as (Hc & HT & Ho). rewrite Hc in IH. simpl in IH.
    destruct (Handle (members T) E) as [h|]; simpl in Hcases.
    + destruct (handle_ret h) as [|X].
      * rewrite Hcases in Hrun. injection Hrun as <-.
        assert (hook_calls
                  {| states := <[i:=self (handle_body h ev o)]> (states m);
                     currentState := currentState m;
                     calls := calls m ++ [call_Handle T E (elem i)];
                     cout := cout m ++ written (handle_body h ev o) |}
                = hook_calls m) as Hhc
          by (unfold hook_calls; simpl; by apply hook_calls_snoc_other).
        destruct LIBFSM_DEBUG; unfold hook_calls in *; simpl in *;
          rewrite Hhc, Hc; exact IH.
      * destruct Hcases as (exec & Hexec & Hrun'). rewrite Hrun' in Hrun.
        refine (Htrans X exec m _ m' i T (self (handle_body h ev o))
                  Hexec _ _ _ IH Hrun).
        -- simpl. by rewrite length_insert.
        -- split; [exact Hc|]. split; [exact HT|]. simpl.
           apply list_lookup_insert_eq. by eapply lookup_lt_Some.
        -- unfold hook_calls. simpl. by apply hook_calls_snoc_other.
    + rewrite Hcases in Hrun. injection Hrun as <-.
      destruct LIBFSM_DEBUG; unfold hook_calls in *; simpl; rewrite Hc;
        exact IH.
  - pose proof (reachable_valid _ _ _ _ _ m Hr) as Hv.
    destruct (valid_active States m Hv) as (Hlen & i & T & o & Hact).
    pose proof Hact as (Hc & _). rewrite Hc in IH.
    by apply (Htrans X f m m m' i T o Hf Hlen Hact eq_refl IH Hrun).
  - pose proof (reachable_valid _ _ _ _ _ m Hr) as Hv.
    destruct (valid_active States m Hv) as (Hlen & i & T & o & Hact).
    rewrite (GetCurrentStateName_at members States m i T o Hact) in Hrun.
    injection Hrun as _ <-. unfold hook_calls in *. simpl.
    by rewrite hook_calls_snoc_other.
Qed.

End MoreFacts.

(** ** The build flag *)

Section DebugFlag.
Context {Ty : Type} `{!EqDecision Ty} {Obj Payload : Type}.
Variable is_base_of_State is_base_of_Event : Ty -> bool.
Variable members : Ty -> StateClass Ty Obj Payload.
Variable States : list Ty.

#[local] Abbreviation Machine := (Machine Ty Obj).
#[local] Abbreviation Dispatch_with LIBFSM_DEBUG :=
  (Dispatch LIBFSM_DEBUG is_base_of_State is_base_of_Event members States).

(** X10.  Building with [LIBFSM_DEBUG] changes what is written and nothing
    else.  [Dispatch<E>] can be instantiated in one build exactly when it
    can be in the other, and when two machines agree on the state objects,
    the active reference and the calls made, then after [Dispatch] in the
    debug build of one and in the plain build of the other they agree
    again. *)
Theorem LIBFSM_DEBUG_only_prints (E : Ty) :
  ((exists g, Dispatch_with true E = Built g) <->
   (exists f, Dispatch_with false E = Built f)) /\
  forall g f (ev : Payload) (m1 m2 : Machine),
    Dispatch_with true E = Built g ->
    Dispatch_with false E = Built f ->
    active_reference_valid States m1 = true ->
    same_but_cout m1 m2 ->
    exists m1' m2',
      g ev m1 = Some m1' /\ f ev m2 = Some m2' /\ same_but_cout m1' m2'.
Proof.
  split.
  { split; intros [h Hh];
      destruct (Dispatch_Built_inv _ _ _ _ _ E h Hh) as [HE Hall];
      by apply Dispatch_builds_from. }
  intros g f ev m1 m2 Hg Hf Hv (Hs & Hc & Hcalls).
  destruct (valid_active States m1 Hv) as (Hlen & i & T & o & Hact1).
  assert (active States m2 i T o) as Hact2.
  { destruct Hact1 as (Hc1 & HT & Ho). split; [congruence|].
    split; [done|congruence]. }
  pose proof (Dispatch_cases true _ _ _ _ E g ev m1 i T o Hg Hact1) as H1.
  pose proof (Dispatch_cases false _ _ _ _ E f ev m2 i T o Hf Hact2) as H2.
  destruct m1 as [s1 c1 ca1 co1], m2 as [s2 c2 ca2 co2]. simpl in *.
  subst s2 c2 ca2.
  destruct (Handle (members T) E) as [h|]; simpl in H1, H2.
  - destruct (handle_ret h) as [|X].
    + rewrite H1, H2. by do 2 eexists.
    + destruct H1 as (exec1 & Hexec1 & ->). destruct H2 as (exec2 & Hexec2 & ->).
      assert (exec2 = exec1) as -> by congruence.
      destruct Hact1 as (Hc1 & HT & Ho). simpl in *.
      assert (i < length s1) as Hi by (by eapply lookup_lt_Some).
      edestruct (Transition_run is_base_of_State members States X exec1
                   {| states := <[i:=self (handle_body h ev o)]> s1;
                      currentState := c1;
                      calls := ca1 ++ [call_Handle T E (elem i)];
                      cout := co1 ++ written (handle_body h ev o) |}
                   i T (self (handle_body h ev o)) Hexec1)
        as (j1 & o1 & Hj1 & Ho1 & ->).
      { simpl. by rewrite length_insert. }
      { split; [exact Hc1|]. split; [exact HT|]. simpl.
        by apply list_lookup_insert_eq. }
      edestruct (Transition_run is_base_of_State members States X exec1
                   {| states := <[i:=self (handle_body h ev o)]> s1;
                      currentState := c1;
                      calls := ca1 ++ [call_Handle T E (elem i)];
                      cout := co2 ++ written (handle_body h ev o) |}
                   i T (self (handle_body h ev o)) Hexec1)
        as (j2 & o2 & Hj2 & Ho2 & ->).
      { simpl. by rewrite length_insert. }
      { split; [exact Hc1|]. split; [exact HT|]. simpl.
        by apply list_lookup_insert_eq. }
      simpl in *. assert (j2 = j1) as -> by congruence.
      assert (o2 = o1) as -> by congruence.
      by do 2 eexists.
  - rewrite H1, H2. by do 2 eexists.
Qed.

End DebugFlag.

(** ** The demo machines under every sequence of operations *)

(** X11.  Whatever was dispatched to the TCP machine of
    [src/demos/tcp/main.cpp], and whichever state it is in,
    [GetCurrentStateName] answers ["<Unnamed State>"]: none of its eleven
    state classes overrides [Name]. *)
Theorem Tcp_always_unnamed (stateMachine : Machine Tcp.Ty unit) :
  reachable false Tcp.is_base_of_State Tcp.is_base_of_Event Tcp.members
    Tcp.States stateMachine ->
  fst <$> Tcp.GetCurrentStateName stateMachine = Some "<Unnamed State>".
Proof.
  intros Hr. pose proof (reachable_valid _ _ _ _ _ _ Hr) as Hv.
  destruct (valid_active _ _ Hv) as (_ & i & T & o & Hact).
  unfold Tcp.GetCurrentStateName.
  rewrite (GetCurrentStateName_at Tcp.members Tcp.States _ i T o Hact).
  by destruct T.
Qed.

(** X12.  The door of [src/demos/door/main.cpp], in whatever state it was
    brought by earlier operations: after [Dispatch(OpenEvent{})] it reports
    ["OpenState"] and after [Dispatch(CloseEvent{})] it reports
    ["ClosedState"].  Opening an open door and closing a closed one are
    accepted and change nothing about which state is active. *)
Theorem Door_open_close (door : Machine Door.Ty unit) :
  reachable false Door.is_base_of_State Door.is_base_of_Event Door.members
    Door.States door ->
  exists open close opened closed,
    Door.Dispatch Door.OpenEvent = Built open /\
    Door.Dispatch Door.CloseEvent = Built close /\
    open tt door = Some opened /\
    close tt door = Some closed /\
    fst <$> Door.GetCurrentStateName opened = Some "OpenState" /\
    fst <$> Door.GetCurrentStateName closed = Some "ClosedState".
Proof.
  intros Hr. pose proof (reachable_valid _ _ _ _ _ _ Hr) as Hv.
  destruct (valid_active _ _ Hv) as (Hlen & i & T & o & Hact).
  pose proof (reachable_canonical _ _ _ _ _ _ _ _ _ Hr Hact) as Hcanon.
  destruct (Door.Dispatch Door.OpenEvent) as [open|] eqn:Hopen;
    [|discriminate Hopen].
  destruct (Door.Dispatch Door.CloseEvent) as [close|] eqn:Hclose;
    [|discriminate Hclose].
  destruct (Dispatch_outcome _ _ _ _ _ Door.OpenEvent open tt door i T o
              Hopen Hlen Hact) as (opened & Hro & Hoo).
  destruct (Dispatch_outcome _ _ _ _ _ Door.CloseEvent close tt door i T o
              Hclose Hlen Hact) as (closed & Hrc & Hoc).
  destruct (Dispatch_valid _ _ _ _ _ Door.OpenEvent open tt door Hopen Hv)
    as (opened' & Hro' & Hvo).
  destruct (Dispatch_valid _ _ _ _ _ Door.CloseEvent close tt door Hclose Hv)
    as (closed' & Hrc' & Hvc).
  assert (opened' = opened) as -> by congruence.
  assert (closed' = closed) as -> by congruence.
  exists open, close, opened, closed. do 4 (split; [done|]).
  destruct (valid_active _ _ Hvo) as (_ & io & To & oo & Hacto).
  destruct (valid_active _ _ Hvc) as (_ & ic & Tc & oc & Hactc).
  unfold Door.GetCurrentStateName.
  rewrite (GetCurrentStateName_at Door.members Door.States _ io To oo Hacto).
  rewrite (GetCurrentStateName_at Door.members Door.States _ ic Tc oc Hactc).
  destruct Hact as (Hc & HT & _).
  destruct Hacto as (Hco & HTo & _). destruct Hactc as (Hcc & HTc & _).
  destruct T; try discriminate Hcanon;
    injection Hcanon as <-; simpl in Hoo, Hoc.
  - destruct Hoo as (j & [= <-] & Hoo).
    rewrite Hoc, Hc in Hcc. rewrite Hoo in Hco.
    injection Hcc as <-. injection Hco as <-.
    simpl in HTo, HTc. injection HTo as <-. by injection HTc as <-.
  - destruct Hoc as (j & [= <-] & Hoc).
    rewrite Hoo, Hc in Hco. rewrite Hoc in Hcc.
    injection Hcc as <-. injection Hco as <-.
    simpl in HTo, HTc. injection HTo as <-. by injection HTc as <-.
Qed.




(** ** Instances of the further facts *)

(** The fresh door given an [OpenEvent]. *)
Lemma Dispatch_handled_transition_witness :
  exists door f door',
    Door.Door = Built door /\
    Door.Dispatch Door.OpenEvent = Built f /\
    f tt door = Some door' /\
    calls door' = [call_Handle Door.ClosedState Door.OpenEvent (elem 0);
                   call_OnStateExit Door.ClosedState (elem 0);
                   call_OnStateEnter Door.OpenState (elem 1)] /\
    fst <$> Door.GetCurrentStateName door' = Some "OpenState".
Proof.
  pose (door := {| states := [tt; tt];
                   currentState := {| index := 0; ptr := elem 0 |};
                   calls := @nil (Call Door.Ty); cout := [] |}).
  destruct (Door.Dispatch Door.OpenEvent) as [f|] eqn:Hf; [|discriminate Hf].
  destruct (Dispatch_handled_transition false Door.is_base_of_State
              Door.is_base_of_Event Door.members Door.States Door.OpenEvent
              Door.OpenState f tt door 0 Door.ClosedState tt
              (FSM_TRANSITION Door.OpenState) Hf eq_refl
              (conj eq_refl (conj eq_refl eq_refl)) eq_refl eq_refl)
    as (j & o' & door' & Hj & Ho' & Hrun & Hdoor' & Hname).
  injection Hj as <-.
  exists door, f, door'. split; [reflexivity|]. split; [reflexivity|].
  split; [exact Hrun|]. split; [by rewrite Hdoor'|exact Hname].
Defined.

(** The classes of the unit test with one change: [State1] is given a
    [Handle] for [Event2] that writes a line and returns
    [NullTransition]. *)
Lemma Dispatch_handled_null_witness :
  let members := fun T : StateMachineTest.Ty =>
    match T with
    | StateMachineTest.State1 =>
        {| ctor := tt;
           Name_override := None;
           OnStateEnter_override := None;
           OnStateExit_override := None;
           Handle := fun E =>
             match E with
             | StateMachineTest.Event2 =>
                 Some {| handle_ret := NullTransition;
                         handle_body := fun _ o => (tt, o, ["ignored"]) |}
             | _ => None
             end |}
    | _ => plain_class
    end in
  exists machine f machine',
    StateMachine StateMachineTest.is_base_of_State members
      StateMachineTest.States = Built machine /\
    Dispatch false StateMachineTest.is_base_of_State
      StateMachineTest.is_base_of_Event members StateMachineTest.States
      StateMachineTest.Event2 = Built f /\
    f tt machine = Some machine' /\
    currentState machine' = currentState machine /\
    calls machine' =
      [call_Handle StateMachineTest.State1 StateMachineTest.Event2 (elem 0)] /\
    cout machine' = ["ignored"].
Proof.
  intros members.
  pose (machine := {| states := [tt; tt];
                      currentState := {| index := 0; ptr := elem 0 |};
                      calls := @nil (Call StateMachineTest.Ty); cout := [] |}).
  destruct (Dispatch false StateMachineTest.is_base_of_State
              StateMachineTest.is_base_of_Event members
              StateMachineTest.States StateMachineTest.Event2)
    as [f|] eqn:Hf; [|discriminate Hf].
  pose proof (Dispatch_handled_null false StateMachineTest.is_base_of_State
                StateMachineTest.is_base_of_Event members
                StateMachineTest.States StateMachineTest.Event2 f tt machine
                0 StateMachineTest.State1 tt
                {| handle_ret := NullTransition;
                   handle_body := fun _ o => (tt, o, ["ignored"]) |}
                Hf (conj eq_refl (conj eq_refl eq_refl)) eq_refl eq_refl)
    as Hrun.
  exists machine, f. eexists. split; [reflexivity|]. split; [reflexivity|].
  split; [exact Hrun|]. repeat split.
Defined.


(** The door: [Dispatch<OpenEvent>] builds, [Dispatch<OpenState>] does
    not. *)
Lemma Dispatch_builds_iff_witness :
  (exists f, Door.Dispatch Door.OpenEvent = Built f) /\
  ~ (exists f, Door.Dispatch Door.OpenState = Built f).
Proof.
  split.
  - apply (Dispatch_builds_iff false Door.is_base_of_State
             Door.is_base_of_Event Door.members Door.States Door.OpenEvent).
    split; [reflexivity|]. intros T X HT Hret.
    apply (Transition_builds Door.is_base_of_State Door.members Door.States
             X (match X with Door.OpenState => 1 | _ => 0 end)).
    + destruct T; try discriminate Hret; by injection Hret as <-.
    + destruct T; try discriminate Hret; by injection Hret as <-.
  - intros Hbuilt.
    apply (Dispatch_builds_iff false Door.is_base_of_State
             Door.is_base_of_Event Door.members Door.States Door.OpenState)
      in Hbuilt as [Hevent _].
    discriminate Hevent.
Defined.


(** The fresh door given an [OpenEvent]: two objects before and after; a
    third slot does not appear. *)
Lemma Dispatch_Transition_frame_witness :
  exists door f door',
    Door.Door = Built door /\
    Door.Dispatch Door.OpenEvent = Built f /\
    f tt door = Some door' /\
    length (states door') = 2 /\
    states door' !! 2 = None.
Proof.
  pose (door := {| states := [tt; tt];
                   currentState := {| index := 0; ptr := elem 0 |};
                   calls := @nil (Call Door.Ty); cout := [] |}).
  destruct (Door.Dispatch Door.OpenEvent) as [f|] eqn:Hf; [|discriminate Hf].
  destruct (f tt door) as [door'|] eqn:Hrun;
    [|injection Hf as <-; discriminate Hrun].
  destruct (Dispatch_Transition_frame false Door.is_base_of_State
              Door.is_base_of_Event Door.members Door.States door door'
              eq_refl) as [Hlen Hframe].
  { left. exists Door.OpenEvent, f, tt. by split. }
  exists door, f, door'. split; [reflexivity|]. split; [reflexivity|].
  split; [exact Hrun|]. split; [exact Hlen|].
  apply (Hframe 2); [discriminate|].
  injection Hf as <-. injection Hrun as <-. discriminate.
Defined.

(** The door overrides no hook: [Transition<OpenState>] on the fresh
    door. *)
Lemma Transition_default_hooks_witness :
  exists door f,
    Door.Door = Built door /\
    Transition Door.is_base_of_State Door.members Door.States Door.OpenState
      = Built f /\
    f door =
      Some {| states := [tt; tt];
              currentState := {| index := 1; ptr := elem 1 |};
              calls := [call_OnStateExit Door.ClosedState (elem 0);
                        call_OnStateEnter Door.OpenState (elem 1)];
              cout := [] |}.
Proof.
  pose (door := {| states := [tt; tt];
                   currentState := {| index := 0; ptr := elem 0 |};
                   calls := @nil (Call Door.Ty); cout := [] |}).
  destruct (Transition Door.is_base_of_State Door.members Door.States
              Door.OpenState) as [f|] eqn:Hf; [|discriminate Hf].
  destruct (Transition_default_hooks Door.is_base_of_State Door.members
              Door.States Door.OpenState f door 0 Door.ClosedState tt Hf
              eq_refl (conj eq_refl (conj eq_refl eq_refl)) eq_refl eq_refl)
    as (j & HjX & Hrun).
  destruct j as [|[|j]]; [discriminate HjX| |discriminate HjX].
  exists door, f. split; [reflexivity|]. split; [reflexivity|exact Hrun].
Defined.

(** [FSM_STATE_BEGIN(ClosedState)] on the fresh door. *)
Lemma FSM_STATE_BEGIN_name_witness :
  exists door,
    Door.Door = Built door /\
    Door.GetCurrentStateName door =
      Some ("ClosedState",
            {| states := [tt; tt];
               currentState := {| index := 0; ptr := elem 0 |};
               calls := [call_Name Door.ClosedState (elem 0)];
               cout := [] |}).
Proof.
  pose (door := {| states := [tt; tt];
                   currentState := {| index := 0; ptr := elem 0 |};
                   calls := @nil (Call Door.Ty); cout := [] |}).
  exists door. split; [reflexivity|].
  exact (FSM_STATE_BEGIN_name Door.members Door.States "ClosedState" door 0
           Door.ClosedState tt (conj eq_refl (conj eq_refl eq_refl)) eq_refl).
Defined.

(** The door after [Dispatch(OpenEvent{})]: one step, from the first
    object to the second. *)
Lemma hook_calls_walk_witness :
  exists door,
    Door.after_open = Some door /\
    hook_calls door = [call_OnStateExit Door.ClosedState (elem 0);
                       call_OnStateEnter Door.OpenState (elem 1)] /\
    hook_chain (elem 0) (hook_calls door) = Some (elem 1).
Proof.
  pose (fresh := {| states := [tt; tt];
                    currentState := {| index := 0; ptr := elem 0 |};
                    calls := @nil (Call Door.Ty); cout := [] |}).
  destruct (Door.Dispatch Door.OpenEvent) as [f|] eqn:Hf; [|discriminate Hf].
  destruct (f tt fresh) as [door|] eqn:Hrun;
    [|injection Hf as <-; discriminate Hrun].
  pose proof (hook_calls_walk false Door.is_base_of_State
                Door.is_base_of_Event Door.members Door.States door) as Hwalk.
  assert (Door.after_open = Some door /\
          hook_calls door = [call_OnStateExit Door.ClosedState (elem 0);
                             call_OnStateEnter Door.OpenState (elem 1)] /\
          ptr (currentState door) = elem 1) as (Hopen & Hhooks & Hptr).
  { injection Hf as <-. injection Hrun as <-. repeat split. }
  exists door. split; [exact Hopen|]. split; [exact Hhooks|].
  rewrite <- Hptr. apply Hwalk.
  eapply (reachable_Dispatch _ _ _ _ _ Door.OpenEvent f tt fresh).
  - apply reachable_fresh. reflexivity.
  - exact Hf.
  - exact Hrun.
Defined.

(** The fresh door given a [CloseEvent], which [ClosedState] does not
    handle, in a debug build and in a plain build. *)
Lemma LIBFSM_DEBUG_only_prints_witness :
  exists door g f door1 door2,
    Door.Door = Built door /\
    Dispatch true Door.is_base_of_State Door.is_base_of_Event Door.members
      Door.States Door.CloseEvent = Built g /\
    Door.Dispatch Door.CloseEvent = Built f /\
    g tt door = Some door1 /\
    f tt door = Some door2 /\
    cout door1 = ["Called Null Transition"] /\
    cout door2 = [] /\
    same_but_cout door1 door2.
Proof.
  pose (door := {| states := [tt; tt];
                   currentState := {| index := 0; ptr := elem 0 |};
                   calls := @nil (Call Door.Ty); cout := [] |}).
  destruct (Dispatch true Door.is_base_of_State Door.is_base_of_Event
              Door.members Door.States Door.CloseEvent)
    as [g|] eqn:Hg; [|discriminate Hg].
  destruct (Door.Dispatch Door.CloseEvent) as [f|] eqn:Hf; [|discriminate Hf].
  destruct (LIBFSM_DEBUG_only_prints Door.is_base_of_State
              Door.is_base_of_Event Door.members Door.States Door.CloseEvent)
    as [_ Hsim].
  destruct (Hsim g f tt door door Hg Hf eq_refl
              (conj eq_refl (conj eq_refl eq_refl)))
    as (door1 & door2 & Hrun1 & Hrun2 & Hsame).
  exists door, g, f, door1, door2.
  split; [reflexivity|]. split; [reflexivity|]. split; [reflexivity|].
  split; [exact Hrun1|]. split; [exact Hrun2|].
  injection Hg as <-. injection Hf as <-.
  injection Hrun1 as <-. injection Hrun2 as <-.
  split; [reflexivity|]. split; [reflexivity|exact Hsame].
Defined.

(** The TCP machine as constructed. *)
Lemma Tcp_always_unnamed_witness :
  exists stateMachine,
    Tcp.TcpStateMachine = Built stateMachine /\
    fst <$> Tcp.GetCurrentStateName stateMachine = Some "<Unnamed State>".
Proof.
  pose (stateMachine :=
          {| states := [tt; tt; tt; tt; tt; tt; tt; tt; tt; tt; tt];
             currentState := {| index := 0; ptr := elem 0 |};
             calls := @nil (Call Tcp.Ty); cout := [] |}).
  exists stateMachine. split; [reflexivity|].
  apply Tcp_always_unnamed. apply reachable_fresh. reflexivity.
Defined.


(** The door as constructed: it is closed, and can be opened. *)
Lemma Door_open_close_witness :
  exists door open opened,
    Door.Door = Built door /\
    Door.Dispatch Door.OpenEvent = Built open /\
    open tt door = Some opened /\
    fst <$> Door.GetCurrentStateName opened = Some "OpenState".
Proof.
  pose (door := {| states := [tt; tt];
                   currentState := {| index := 0; ptr := elem 0 |};
                   calls := @nil (Call Door.Ty); cout := [] |}).
  destruct (Door_open_close door)
    as (open & close & opened & closed & Hopen & _ & Hrun & _ & Hname & _).
  { apply reachable_fresh. reflexivity. }
  exists door, open, opened. split; [reflexivity|]. split; [exact Hopen|].
  split; [exact Hrun|exact Hname].
Defined.
